(** * Module paths and versions: package [module] of radeksimko/mod

    A shallow embedding of [module/module.go] and a verification of its
    path grammar, major-version splitter, escaping codec and ordering
    comparator.

    Go strings are immutable byte sequences: they are modelled as lists of
    [ascii] (8-bit bytes).  Runes are [Z].  An [error] is an [Errorf] value
    carrying the format string and arguments of the [fmt.Errorf] call that
    built it; a Go [error] result is an [option error] ([None] is [nil]). *)

From Stdlib Require Import Ascii String.
From Stdlib Require Import List ZArith Lia Bool.
Import ListNotations.
Local Open Scope Z_scope.

(** ** Bytes and strings *)

Definition gostring := list ascii.

(** A Go string literal. *)
Definition str (s : string) : gostring := list_ascii_of_string s.
Arguments str s%_string.

(** Conversions [rune(b)] and [byte(r)]. *)
Definition b2z (c : ascii) : Z := Z.of_N (N_of_ascii c).
Definition z2b (z : Z) : ascii := ascii_of_N (Z.to_N (z mod 256)).

(** A rune literal such as ['/']. *)
Definition rn (c : ascii) : Z := b2z c.
Arguments rn c%_char.

(** [s[k]]; every use in the source is guarded to be in range. *)
Definition byteAt (s : gostring) (k : nat) : ascii := nth k s zero.

(** [a == b] and [a <= b] on bytes. *)
Definition byte_eqb (a b : ascii) : bool := Ascii.eqb a b.
Definition byte_leb (a b : ascii) : bool := b2z a <=? b2z b.
Arguments byte_eqb a%_char b%_char.
Arguments byte_leb a%_char b%_char.

(** [s == t] on strings. *)
Fixpoint streq (s t : gostring) : bool :=
  match s, t with
  | [], [] => true
  | a :: s', b :: t' => byte_eqb a b && streq s' t'
  | _, _ => false
  end.

(** [s < t] on strings: byte-wise lexicographic order. *)
Fixpoint strlt (s t : gostring) : bool :=
  match s, t with
  | _, [] => false
  | [], _ :: _ => true
  | a :: s', b :: t' =>
      if b2z a <? b2z b then true
      else if b2z b <? b2z a then false
      else strlt s' t'
  end.

(** ** Package [strings] *)

(** [strings.HasPrefix(s, prefix)] *)
Fixpoint HasPrefix (s prefix : gostring) {struct prefix} : bool :=
  match prefix, s with
  | [], _ => true
  | p :: prefix', c :: s' => byte_eqb c p && HasPrefix s' prefix'
  | _ :: _, [] => false
  end.

(** [strings.HasSuffix(s, suffix)]:
    [len(s) >= len(suffix) && s[len(s)-len(suffix):] == suffix] *)
Definition HasSuffix (s suffix : gostring) : bool :=
  (length suffix <=? length s)%nat
  && streq (skipn (length s - length suffix) s) suffix.

(** [strings.TrimSuffix(s, suffix)] *)
Definition TrimSuffix (s suffix : gostring) : gostring :=
  if HasSuffix s suffix then firstn (length s - length suffix) s else s.

(** [strings.Index(s, substr)]; [None] stands for the result [-1]. *)
Fixpoint Index (s substr : gostring) : option nat :=
  if HasPrefix s substr then Some O
  else match s with
       | [] => None
       | _ :: s' => option_map S (Index s' substr)
       end.

(** [strings.Contains(s, substr)] is [Index(s, substr) >= 0]. *)
Definition Contains (s substr : gostring) : bool :=
  match Index s substr with Some _ => true | None => false end.

(** [strings.Count(s, substr)] for a one-byte [substr]. *)
Definition Count1 (s : gostring) (c : ascii) : nat :=
  length (filter (byte_eqb c) s).
Arguments Count1 s c%_char.

(** ** Package [unicode/utf8] and [range] over a string *)

Definition RuneSelf : Z := 128.
Definition RuneError : Z := 65533.

(** The table [first] with [acceptRanges]: for a leading byte, the size of
    the sequence and the accepted range of its second byte. *)
Definition first (b0 : Z) : option (nat * Z * Z) :=
  if (194 <=? b0) && (b0 <=? 223) then Some (2%nat, 128, 191)
  else if b0 =? 224 then Some (3%nat, 160, 191)
  else if (225 <=? b0) && (b0 <=? 236) then Some (3%nat, 128, 191)
  else if b0 =? 237 then Some (3%nat, 128, 159)
  else if (238 <=? b0) && (b0 <=? 239) then Some (3%nat, 128, 191)
  else if b0 =? 240 then Some (4%nat, 144, 191)
  else if (241 <=? b0) && (b0 <=? 243) then Some (4%nat, 128, 191)
  else if b0 =? 244 then Some (4%nat, 128, 143)
  else None.

Definition contb (b : Z) : bool := (128 <=? b) && (b <=? 191).

(** The well-formed sequence at the head of [s], if any: its rune and its
    width in bytes. *)
Definition decodeSeq (s : gostring) : option (Z * nat) :=
  match s with
  | [] => None
  | c0 :: t =>
      let s0 := b2z c0 in
      if s0 <? RuneSelf then Some (s0, 1%nat)
      else
        match first s0, t with
        | Some (2%nat, lo, hi), c1 :: _ =>
            let s1 := b2z c1 in
            if (lo <=? s1) && (s1 <=? hi)
            then Some (Z.lor (Z.shiftl (Z.land s0 31) 6) (Z.land s1 63), 2%nat)
            else None
        | Some (3%nat, lo, hi), c1 :: c2 :: _ =>
            let s1 := b2z c1 in
            let s2 := b2z c2 in
            if (lo <=? s1) && (s1 <=? hi) && contb s2
            then Some (Z.lor (Z.shiftl (Z.land s0 15) 12)
                         (Z.lor (Z.shiftl (Z.land s1 63) 6) (Z.land s2 63)),
                       3%nat)
            else None
        | Some (4%nat, lo, hi), c1 :: c2 :: c3 :: _ =>
            let s1 := b2z c1 in
            let s2 := b2z c2 in
            let s3 := b2z c3 in
            if (lo <=? s1) && (s1 <=? hi) && contb s2 && contb s3
            then Some (Z.lor (Z.shiftl (Z.land s0 7) 18)
                         (Z.lor (Z.shiftl (Z.land s1 63) 12)
                            (Z.lor (Z.shiftl (Z.land s2 63) 6) (Z.land s3 63))),
                       4%nat)
            else None
        | _, _ => None
        end
  end.

(** [utf8.DecodeRuneInString(s)] on a non-empty string: an ill-formed
    sequence decodes to [RuneError] of width 1. *)
Definition DecodeRuneInString (s : gostring) : Z * nat :=
  match decodeSeq s with
  | Some rw => rw
  | None => (RuneError, 1%nat)
  end.

(** [for i, r := range s]: the pairs [(i, r)] in order.  [skip] counts the
    bytes of the current rune still to be passed over. *)
Fixpoint range_from (i skip : nat) (s : gostring) : list (nat * Z) :=
  match s with
  | [] => []
  | _ :: t =>
      match skip with
      | S k => range_from (S i) k t
      | O =>
          let '(r, w) := DecodeRuneInString s in
          (i, r) :: range_from (S i) (w - 1) t
      end
  end.

Definition range (s : gostring) : list (nat * Z) := range_from 0 0 s.

(** [for _, r := range s] *)
Definition runes (s : gostring) : list Z := map snd (range s).

(** [utf8.ValidString(s)] *)
Fixpoint valid_from (skip : nat) (s : gostring) : bool :=
  match s with
  | [] => true
  | _ :: t =>
      match skip with
      | S k => valid_from k t
      | O =>
          match decodeSeq s with
          | Some (_, w) => valid_from (w - 1) t
          | None => false
          end
      end
  end.

Definition ValidString (s : gostring) : bool := valid_from 0 s.

(** ** Package [unicode] and [strings.EqualFold] *)

(** The Unicode tables the standard library consults for runes outside
    Latin-1 resp. outside ASCII; the development is parametric in them. *)
Record unicode_tables : Type := {
  (** [unicode.IsLetter] above U+00FF *)
  letter_above_Latin1 : Z -> bool;
  (** for [sr < tr] with [tr >= RuneSelf]: [tr] lies on the
      [unicode.SimpleFold] orbit of [sr] *)
  SimpleFold_reaches : Z -> Z -> bool
}.

(** The letters of Latin-1 (categories Lu, Ll, Lo of the [properties] table). *)
Definition latin1_letter (r : Z) : bool :=
  ((65 <=? r) && (r <=? 90)) || ((97 <=? r) && (r <=? 122))
  || (r =? 170) || (r =? 181) || (r =? 186)
  || ((192 <=? r) && (r <=? 214)) || ((216 <=? r) && (r <=? 246))
  || ((248 <=? r) && (r <=? 255)).

(** [unicode.IsLetter(r)] *)
Definition IsLetter (U : unicode_tables) (r : Z) : bool :=
  if (0 <=? r) && (r <=? 255) then latin1_letter r
  else letter_above_Latin1 U r.

Definition isUpper (r : Z) : bool := (rn "A" <=? r) && (r <=? rn "Z").
Definition isLower (r : Z) : bool := (rn "a" <=? r) && (r <=? rn "z").
Definition isDigit (r : Z) : bool := (rn "0" <=? r) && (r <=? rn "9").

(** The loop of [strings.EqualFold] over the runes of both strings. *)
Fixpoint equalFoldRunes (U : unicode_tables) (s t : list Z) : bool :=
  match s, t with
  | sr :: s', tr :: t' =>
      if tr =? sr then equalFoldRunes U s' t'
      else
        let '(sr, tr) := if tr <? sr then (tr, sr) else (sr, tr) in
        if tr <? RuneSelf then
          if isUpper sr && (tr =? sr + rn "a" - rn "A")
          then equalFoldRunes U s' t' else false
        else
          if SimpleFold_reaches U sr tr then equalFoldRunes U s' t' else false
  | [], [] => true
  | _, _ => false
  end.

(** [strings.EqualFold(s, t)] *)
Definition EqualFold (U : unicode_tables) (s t : gostring) : bool :=
  equalFoldRunes U (runes s) (runes t).

(** ** Errors *)

Inductive error : Type :=
| Errorf : string -> list fmtarg -> error
with fmtarg : Type :=
| ArgStr : gostring -> fmtarg
| ArgRune : Z -> fmtarg
| ArgErr : error -> fmtarg.
Arguments Errorf _%_string _%_list.

(** ** Package [semver] *)

(** The semantic-version collaborator as [module.go] uses it. *)
Record semver_pkg : Type := {
  semver_IsValid : gostring -> bool;
  semver_Major : gostring -> gostring;
  semver_Build : gostring -> gostring
}.

(** The substrings of [s] between occurrences of the byte [sep]. *)
Fixpoint split_on (sep : ascii) (s : gostring) : list gostring :=
  match s with
  | [] => [[]]
  | c :: t =>
      if byte_eqb c sep then [] :: split_on sep t
      else match split_on sep t with
           | e :: es => (c :: e) :: es
           | [] => [[c]]
           end
  end.
Arguments split_on sep%_char s.

Definition isDigitB (c : ascii) : bool := isDigit (b2z c).

(** The longest prefix of [v] satisfying [p], and the rest. *)
Fixpoint span (p : ascii -> bool) (v : gostring) : gostring * gostring :=
  match v with
  | [] => ([], [])
  | c :: t =>
      if p c then let '(d, r) := span p t in (c :: d, r) else ([], v)
  end.

(** Modelled from the spec: package [semver] is not among the sources.
    This instance follows the semantic-version grammar
    [vMAJOR[.MINOR[.PATCH[-PRERELEASE][+BUILD]]]] that the collaborator of
    section 6 of the specification ([isValidSemver], [major],
    [buildMetadata]) implements; it serves to evaluate [Check] and
    [MatchPathMajor] on concrete versions. *)
Definition model_parseInt (v : gostring) : option (gostring * gostring) :=
  match span isDigitB v with
  | ([], _) => None
  | (c :: d, rest) =>
      if byte_eqb c "0" && negb (Nat.eqb (length d) 0) then None
      else Some (c :: d, rest)
  end.

Definition model_isIdentChar (c : ascii) : bool :=
  isUpper (b2z c) || isLower (b2z c) || isDigit (b2z c) || byte_eqb c "-".

Definition model_isBadNum (v : gostring) : bool :=
  forallb isDigitB v && (1 <? length v)%nat && byte_eqb (byteAt v 0) "0".

(** Modelled from the spec: a pre-release or build tag is a series of
    non-empty dot-separated identifiers over [0-9A-Za-z-]; numeric
    pre-release identifiers have no leading zero. *)
Definition model_identifiers (numeric : bool) (v : gostring) : bool :=
  forallb (fun id => negb (Nat.eqb (length id) 0)
                     && forallb model_isIdentChar id
                     && negb (numeric && model_isBadNum id))
          (split_on "." v).

Definition model_parseTail (v : gostring) : option gostring :=
  let '(pre, v1) :=
    match v with
    | c :: t => if byte_eqb c "-"
                then let '(p, r) := span (fun x => negb (byte_eqb x "+")) t in
                     (Some p, r)
                else (None, v)
    | [] => (None, v)
    end in
  let pre_ok := match pre with Some p => model_identifiers true p | None => true end in
  if negb pre_ok then None
  else match v1 with
       | [] => Some []
       | c :: t => if byte_eqb c "+" && model_identifiers false t
                   then Some v1 else None
       end.

(** Modelled from the spec: the parse of a version, returning its major
    number and its build tag. *)
Definition model_parse (v : gostring) : option (gostring * gostring) :=
  match v with
  | c :: v1 =>
      if negb (byte_eqb c "v") then None else
      match model_parseInt v1 with
      | None => None
      | Some (major, []) => Some (major, [])
      | Some (major, d1 :: v2) =>
          if negb (byte_eqb d1 ".") then None else
          match model_parseInt v2 with
          | None => None
          | Some (_, []) => Some (major, [])
          | Some (_, d2 :: v3) =>
              if negb (byte_eqb d2 ".") then None else
              match model_parseInt v3 with
              | None => None
              | Some (_, v4) =>
                  match model_parseTail v4 with
                  | None => None
                  | Some build => Some (major, build)
                  end
              end
          end
      end
  | [] => None
  end.

(** Modelled from the spec: [isValidSemver], [major] (such as ["v2"]) and
    [buildMetadata] (such as ["+incompatible"]). *)
Definition semver_model : semver_pkg := {|
  semver_IsValid := fun v =>
    match model_parse v with Some _ => true | None => false end;
  semver_Major := fun v =>
    match model_parse v with
    | Some (major, _) => firstn (1 + length major) v
    | None => []
    end;
  semver_Build := fun v =>
    match model_parse v with Some (_, build) => build | None => [] end
|}.

(** ** Package [module] *)

(** [type Version struct { Path, Version string }] *)
Record Version : Type := { Path : gostring; Version_ : gostring }.

(** [firstPathOK] reports whether [r] can appear in the first element of a
    module path. *)
Definition firstPathOK (r : Z) : bool :=
  (r =? rn "-") || (r =? rn ".")
  || ((rn "0" <=? r) && (r <=? rn "9"))
  || ((rn "a" <=? r) && (r <=? rn "z")).

(** [pathOK] reports whether [r] can appear in an import path element. *)
Definition pathOK (r : Z) : bool :=
  if r <? RuneSelf then
    (r =? rn "+") || (r =? rn "-") || (r =? rn ".") || (r =? rn "_")
    || (r =? rn "~")
    || ((rn "0" <=? r) && (r <=? rn "9"))
    || ((rn "A" <=? r) && (r <=? rn "Z"))
    || ((rn "a" <=? r) && (r <=? rn "z"))
  else false.

(** [fileNameOK] reports whether [r] can appear in a file name. *)
Definition fileNameOK (U : unicode_tables) (r : Z) : bool :=
  if r <? RuneSelf then
    let allowed := str "!#$%&()+,-.=@[]^_{}~ " in
    if ((rn "0" <=? r) && (r <=? rn "9"))
       || ((rn "A" <=? r) && (r <=? rn "Z"))
       || ((rn "a" <=? r) && (r <=? rn "z"))
    then true
    else existsb (fun a => b2z a =? r) allowed
  else IsLetter U r.

(** [badWindowsNames] are the reserved file path elements on Windows. *)
Definition badWindowsNames : list gostring :=
  map str
    ["CON"; "PRN"; "AUX"; "NUL";
     "COM1"; "COM2"; "COM3"; "COM4"; "COM5"; "COM6"; "COM7"; "COM8"; "COM9";
     "LPT1"; "LPT2"; "LPT3"; "LPT4"; "LPT5"; "LPT6"; "LPT7"; "LPT8"; "LPT9"]%string.

(** [checkElem] checks whether an individual path element is valid. *)
Definition checkElem (U : unicode_tables) (elem : gostring) (fileName : bool)
  : option error :=
  if streq elem [] then Some (Errorf "empty path element" [])
  else if Nat.eqb (Count1 elem ".") (length elem)
  then Some (Errorf "invalid path element %q" [ArgStr elem])
  else if byte_eqb (byteAt elem 0) "." && negb fileName
  then Some (Errorf "leading dot in path element" [])
  else if byte_eqb (byteAt elem (length elem - 1)) "."
  then Some (Errorf "trailing dot in path element" [])
  else
    let charOK := if fileName then fileNameOK U else pathOK in
    match find (fun r => negb (charOK r)) (runes elem) with
    | Some r => Some (Errorf "invalid char %q" [ArgRune r])
    | None =>
        let short :=
          match Index elem (str ".") with
          | Some i => firstn i elem
          | None => elem
          end in
        match find (fun bad => EqualFold U bad short) badWindowsNames with
        | Some _ =>
            Some (Errorf "%q disallowed as path element component on Windows"
                    [ArgStr short])
        | None => None
        end
    end.

(** The loop of [checkPath] over [for i, r := range path]; the result is
    the first error, or the final value of [elemStart]. *)
Fixpoint checkPath_loop (U : unicode_tables) (path : gostring)
  (fileName : bool) (irs : list (nat * Z)) (elemStart : nat)
  : error + nat :=
  match irs with
  | [] => inr elemStart
  | (i, r) :: rest =>
      if r =? rn "/" then
        match checkElem U (firstn (i - elemStart) (skipn elemStart path))
                fileName with
        | Some err => inl err
        | None => checkPath_loop U path fileName rest (i + 1)
        end
      else checkPath_loop U path fileName rest elemStart
  end.

(** [checkPath] checks that a general path is valid. *)
Definition checkPath (U : unicode_tables) (path : gostring) (fileName : bool)
  : option error :=
  if negb (ValidString path) then Some (Errorf "invalid UTF-8" [])
  else if streq path [] then Some (Errorf "empty string" [])
  else if Contains path (str "..") then Some (Errorf "double dot" [])
  else if Contains path (str "//") then Some (Errorf "double slash" [])
  else if byte_eqb (byteAt path (length path - 1)) "/"
  then Some (Errorf "trailing slash" [])
  else
    match checkPath_loop U path fileName (range path) 0 with
    | inl err => Some err
    | inr elemStart => checkElem U (skipn elemStart path) fileName
    end.

(** [CheckImportPath] checks that an import path is valid. *)
Definition CheckImportPath (U : unicode_tables) (path : gostring)
  : option error :=
  match checkPath U path false with
  | Some err =>
      Some (Errorf "malformed import path %q: %v" [ArgStr path; ArgErr err])
  | None => None
  end.

(** [CheckFilePath] checks that a slash-separated file path is valid. *)
Definition CheckFilePath (U : unicode_tables) (path : gostring)
  : option error :=
  match checkPath U path true with
  | Some err =>
      Some (Errorf "malformed file path %q: %v" [ArgStr path; ArgErr err])
  | None => None
  end.

(** The backward scan of [SplitPathVersion] over digits and dots: the final
    [i] and [dot]. *)
Fixpoint scanDigitsDots (path : gostring) (i : nat) (dot : bool)
  : nat * bool :=
  match i with
  | O => (O, dot)
  | S k =>
      let c := byteAt path k in
      if (byte_leb "0" c && byte_leb c "9") || byte_eqb c "."
      then scanDigitsDots path k (if byte_eqb c "." then true else dot)
      else (i, dot)
  end.

(** The backward scan of [splitGopkgIn] over digits: the final [i]. *)
Fixpoint scanDigits (path : gostring) (i : nat) : nat :=
  match i with
  | O => O
  | S k =>
      let c := byteAt path k in
      if byte_leb "0" c && byte_leb c "9" then scanDigits path k else i
  end.

(** [splitGopkgIn] is like [SplitPathVersion] but only for gopkg.in paths. *)
Definition splitGopkgIn (path : gostring) : gostring * gostring * bool :=
  if negb (HasPrefix path (str "gopkg.in/")) then (path, [], false)
  else
    let i := length path in
    let i := if HasSuffix path (str "-unstable")
             then (i - length (str "-unstable"))%nat else i in
    let i := scanDigits path i in
    if (i <=? 1)%nat
       || negb (byte_eqb (byteAt path (i - 1)) "v")
       || negb (byte_eqb (byteAt path (i - 2)) ".")
    then (path, [], false)
    else
      let prefix := firstn (i - 2) path in
      let pathMajor := skipn (i - 2) path in
      if (length pathMajor <=? 2)%nat
         || (byte_eqb (byteAt pathMajor 2) "0"
             && negb (streq pathMajor (str ".v0")))
      then (path, [], false)
      else (prefix, pathMajor, true).

(** [SplitPathVersion] returns [prefix] and major version such that
    [prefix+pathMajor == path]. *)
Definition SplitPathVersion (path : gostring) : gostring * gostring * bool :=
  if HasPrefix path (str "gopkg.in/") then splitGopkgIn path
  else
    let '(i, dot) := scanDigitsDots path (length path) false in
    if (i <=? 1)%nat || Nat.eqb i (length path)
       || negb (byte_eqb (byteAt path (i - 1)) "v")
       || negb (byte_eqb (byteAt path (i - 2)) "/")
    then (path, [], true)
    else
      let prefix := firstn (i - 2) path in
      let pathMajor := skipn (i - 2) path in
      if dot || (length pathMajor <=? 2)%nat
         || byte_eqb (byteAt pathMajor 2) "0"
         || streq pathMajor (str "/v1")
      then (path, [], false)
      else (prefix, pathMajor, true).

(** [CheckPath] checks that a module path is valid. *)
Definition CheckPath (U : unicode_tables) (path : gostring) : option error :=
  match checkPath U path false with
  | Some err =>
      Some (Errorf "malformed module path %q: %v" [ArgStr path; ArgErr err])
  | None =>
      let i := match Index path (str "/") with
               | Some i => i
               | None => length path
               end in
      if Nat.eqb i 0
      then Some (Errorf "malformed module path %q: leading slash"
                   [ArgStr path])
      else if negb (Contains (firstn i path) (str "."))
      then Some (Errorf
                   "malformed module path %q: missing dot in first path element"
                   [ArgStr path])
      else if byte_eqb (byteAt path 0) "-"
      then Some (Errorf
                   "malformed module path %q: leading dash in first path element"
                   [ArgStr path])
      else
        match find (fun r => negb (firstPathOK r)) (runes (firstn i path)) with
        | Some r =>
            Some (Errorf
                    "malformed module path %q: invalid char %q in first path element"
                    [ArgStr path; ArgRune r])
        | None =>
            let '(_, _, ok) := SplitPathVersion path in
            if negb ok
            then Some (Errorf "malformed module path %q: invalid version"
                         [ArgStr path])
            else None
        end
  end.

(** [MatchPathMajor] reports whether the semantic version [v] matches the
    path major version [pathMajor]. *)
Definition MatchPathMajor (sv : semver_pkg) (v pathMajor : gostring) : bool :=
  let pathMajor :=
    if HasPrefix pathMajor (str ".v") && HasSuffix pathMajor (str "-unstable")
    then TrimSuffix pathMajor (str "-unstable") else pathMajor in
  if HasPrefix v (str "v0.0.0-") && streq pathMajor (str ".v1") then true
  else
    let m := semver_Major sv v in
    if streq pathMajor []
    then streq m (str "v0") || streq m (str "v1")
         || streq (semver_Build sv v) (str "+incompatible")
    else (byte_eqb (byteAt pathMajor 0) "/" || byte_eqb (byteAt pathMajor 0) ".")
         && streq m (skipn 1 pathMajor).

(** [Check] checks that a given module path, version pair is valid. *)
Definition Check (U : unicode_tables) (sv : semver_pkg)
  (path version : gostring) : option error :=
  match CheckPath U path with
  | Some err => Some err
  | None =>
      if negb (semver_IsValid sv version)
      then Some (Errorf "malformed semantic version %v" [ArgStr version])
      else
        let '(_, pathMajor, _) := SplitPathVersion path in
        if negb (MatchPathMajor sv version pathMajor) then
          let pathMajor :=
            if streq pathMajor [] then str "v0 or v1" else pathMajor in
          let pathMajor :=
            if byte_eqb (byteAt pathMajor 0) "." then skipn 1 pathMajor
            else pathMajor in
          Some (Errorf "mismatched module path %v and version %v (want %v)"
                  [ArgStr path; ArgStr version; ArgStr pathMajor])
        else None
  end.

(** The comparator that [Sort] hands to [sort.Slice], at [mi := list[i]] and
    [mj := list[j]]; [Compare] is [semver.Compare]. *)
Definition Sort_less (Compare : gostring -> gostring -> Z) (mi mj : Version)
  : bool :=
  if negb (streq (Path mi) (Path mj)) then strlt (Path mi) (Path mj)
  else
    let vi := Version_ mi in
    let vj := Version_ mj in
    let '(vi, fi) := match Index vi (str "/") with
                     | Some k => (firstn k vi, skipn k vi)
                     | None => (vi, [])
                     end in
    let '(vj, fj) := match Index vj (str "/") with
                     | Some k => (firstn k vj, skipn k vj)
                     | None => (vj, [])
                     end in
    if negb (streq vi vj) then Compare vi vj <? 0
    else strlt fi fj.

(** The first loop of [escapeString]: [None] on a rune that is ['!'] or not
    ASCII, else the final [haveUpper]. *)
Fixpoint escapeScan (rs : list Z) (haveUpper : bool) : option bool :=
  match rs with
  | [] => Some haveUpper
  | r :: rest =>
      if (r =? rn "!") || (RuneSelf <=? r) then None
      else escapeScan rest (if isUpper r then true else haveUpper)
  end.

(** The second loop of [escapeString], appending to [buf]. *)
Fixpoint escapeFill (rs : list Z) (buf : gostring) : gostring :=
  match rs with
  | [] => buf
  | r :: rest =>
      if isUpper r
      then escapeFill rest (buf ++ ["!"%char; z2b (r + rn "a" - rn "A")])
      else escapeFill rest (buf ++ [z2b r])
  end.

Definition escapeString (s : gostring) : gostring * option error :=
  match escapeScan (runes s) false with
  | None =>
      ([], Some (Errorf "internal error: inconsistency in EscapePath" []))
  | Some haveUpper =>
      if negb haveUpper then (s, None)
      else (escapeFill (runes s) [], None)
  end.

(** [EscapePath] returns the escaped form of the given module path. *)
Definition EscapePath (U : unicode_tables) (path : gostring)
  : gostring * option error :=
  match CheckPath U path with
  | Some err => ([], Some err)
  | None => escapeString path
  end.

(** [EscapeVersion] returns the escaped form of the given module version. *)
Definition EscapeVersion (U : unicode_tables) (v : gostring)
  : gostring * option error :=
  if match checkElem U v true with Some _ => true | None => false end
     || Contains v (str "!")
  then ([], Some (Errorf "disallowed version string %q" [ArgStr v]))
  else escapeString v.

(** The loop of [unescapeString]: [None] on an early [return "", false],
    else the final [buf] and [bang]. *)
Fixpoint unescapeLoop (rs : list Z) (buf : gostring) (bang : bool)
  : option (gostring * bool) :=
  match rs with
  | [] => Some (buf, bang)
  | r :: rest =>
      if RuneSelf <=? r then None
      else if bang then
        if (r <? rn "a") || (rn "z" <? r) then None
        else unescapeLoop rest (buf ++ [z2b (r + rn "A" - rn "a")]) false
      else if r =? rn "!" then unescapeLoop rest buf true
      else if isUpper r then None
      else unescapeLoop rest (buf ++ [z2b r]) false
  end.

Definition unescapeString (escaped : gostring) : gostring * bool :=
  match unescapeLoop (runes escaped) [] false with
  | None => ([], false)
  | Some (buf, bang) => if bang then ([], false) else (buf, true)
  end.

(** [UnescapePath] returns the module path for the given escaped path. *)
Definition UnescapePath (U : unicode_tables) (escaped : gostring)
  : gostring * option error :=
  let '(path, ok) := unescapeString escaped in
  if negb ok
  then ([], Some (Errorf "invalid escaped module path %q" [ArgStr escaped]))
  else
    match CheckPath U path with
    | Some err =>
        ([], Some (Errorf "invalid escaped module path %q: %v"
                     [ArgStr escaped; ArgErr err]))
    | None => (path, None)
    end.

(** [UnescapeVersion] returns the version string for the given escaped
    version. *)
Definition UnescapeVersion (U : unicode_tables) (escaped : gostring)
  : gostring * option error :=
  let '(v, ok) := unescapeString escaped in
  if negb ok
  then ([], Some (Errorf "invalid escaped version %q" [ArgStr escaped]))
  else
    match checkElem U v true with
    | Some err =>
        ([], Some (Errorf "invalid escaped version %q: %v"
                     [ArgStr v; ArgErr err]))
    | None => (v, None)
    end.

(** [String] returns the module version syntax [Path@Version]. *)
Definition Version_String (m : Version) : gostring :=
  Path m ++ str "@" ++ Version_ m.

(** ** Reference definitions

    The properties of the specification, stated independently of the
    control flow of the source. *)

(** [s] split into what precedes its longest suffix satisfying [p], and
    that suffix. *)
Definition trailing_run (p : ascii -> bool) (s : gostring)
  : gostring * gostring :=
  let '(r, rest) := span p (rev s) in (rev rest, rev r).

Definition isDigitOrDot (c : ascii) : bool := isDigitB c || byte_eqb c ".".

Definition has_dot (s : gostring) : bool :=
  existsb (fun c => byte_eqb c ".") s.

Definition starts_with_zero (s : gostring) : bool :=
  match s with c :: _ => byte_eqb c "0" | [] => false end.

Definition is_nil (s : gostring) : bool :=
  match s with [] => true | _ :: _ => false end.

(** The generic dialect as the specification words it: after the backward
    scan over an optional run of digits and dots, a prefix ending in [/v]
    makes a candidate suffix, rejected when the run has a dot, the suffix is
    2 characters or shorter, the first digit is [0], or the suffix is [/v1]. *)
Definition stated_generic_reject (path : gostring) : bool :=
  let '(pre, run) := trailing_run isDigitOrDot path in
  HasSuffix pre (str "/v")
  && (has_dot run
      || (length (str "/v" ++ run) <=? 2)%nat
      || starts_with_zero run
      || streq (str "/v" ++ run) (str "/v1")).

(** The generic dialect as the source decides it: a candidate needs a
    non-empty run. *)
Definition generic_split (path : gostring) : gostring * gostring * bool :=
  let '(pre, run) := trailing_run isDigitOrDot path in
  if HasSuffix pre (str "/v") && negb (is_nil run) then
    if has_dot run || starts_with_zero run || streq run (str "1")
    then (path, [], false)
    else (firstn (length pre - 2) pre, str "/v" ++ run, true)
  else (path, [], true).

(** The legacy dialect: the optional marker, the digit run before it, and
    what precedes the run. *)
Definition gopkg_marker (path : gostring) : gostring :=
  if HasSuffix path (str "-unstable") then str "-unstable" else [].

Definition gopkg_split (path : gostring) : gostring * gostring * bool :=
  let marker := gopkg_marker path in
  let '(pre, run) :=
    trailing_run isDigitB (firstn (length path - length marker) path) in
  if HasSuffix pre (str ".v")
     && negb (is_nil (run ++ marker))
     && (negb (starts_with_zero run) || streq (run ++ marker) (str "0"))
  then (firstn (length pre - 2) pre, str ".v" ++ run ++ marker, true)
  else (path, [], false).

(** The matching rule between a version and the major-version suffix of a
    path: a path without suffix takes major [v0] or [v1], or any version
    whose build tag is [+incompatible]; a suffix [/vN] takes major [vN]; a
    legacy suffix [.vN], with or without [-unstable], takes major [vN], and
    [.v1] also every version that starts with [v0.0.0-]. *)
Definition major_matches (sv : semver_pkg) (v pathMajor : gostring) : Prop :=
  (pathMajor = []
   /\ (semver_Major sv v = str "v0" \/ semver_Major sv v = str "v1"
       \/ semver_Build sv v = str "+incompatible"))
  \/ (exists n, pathMajor = str "/v" ++ n
                /\ semver_Major sv v = str "v" ++ n)
  \/ (exists n marker,
        pathMajor = str ".v" ++ n ++ marker
        /\ forallb isDigitB n = true
        /\ (marker = [] \/ marker = str "-unstable")
        /\ (semver_Major sv v = str "v" ++ n
            \/ (n = str "1" /\ HasPrefix v (str "v0.0.0-") = true))).

(** The expected major version that the error of [Check] names. *)
Definition wanted_major (pathMajor want : gostring) : Prop :=
  (pathMajor = [] /\ want = str "v0 or v1")
  \/ (exists n, pathMajor = str "/v" ++ n /\ want = str "/v" ++ n)
  \/ (exists n marker, pathMajor = str ".v" ++ n ++ marker
                       /\ want = str "v" ++ n ++ marker).

(** Byte-wise lexicographic order. *)
Inductive lex_lt : gostring -> gostring -> Prop :=
| lex_lt_nil (b : ascii) (t : gostring) : lex_lt [] (b :: t)
| lex_lt_head (a b : ascii) (s t : gostring) :
    b2z a < b2z b -> lex_lt (a :: s) (b :: t)
| lex_lt_tail (a : ascii) (s t : gostring) :
    lex_lt s t -> lex_lt (a :: s) (a :: t).

Definition notSlash (c : ascii) : bool := negb (byte_eqb c "/").

(** A version split at its first ['/']: the semantic-version part before
    it, and the tag from it on. *)
Definition semver_part (v : gostring) : gostring := fst (span notSlash v).
Definition file_tag (v : gostring) : gostring := snd (span notSlash v).

(** The bytes of an import path element: ASCII letters, digits and the
    punctuation [+ - . _ ~]. *)
Definition import_chars : gostring :=
  str "+-._~0123456789ABCDEFGHIJKLMNOPQRSTUVWXYZabcdefghijklmnopqrstuvwxyz".

Definition import_char (c : ascii) : Prop := In c import_chars.

(** Equality of ASCII strings up to the case of letters. *)
Definition lowerZ (r : Z) : Z :=
  if (65 <=? r) && (r <=? 90) then r + 32 else r.

Definition fold_eq (s t : gostring) : Prop :=
  map (fun c => lowerZ (b2z c)) s = map (fun c => lowerZ (b2z c)) t.

(** The reserved device names [CON, PRN, AUX, NUL, COM1]-[COM9],
    [LPT1]-[LPT9]. *)
Definition reserved_names : list gostring :=
  map str ["CON"; "PRN"; "AUX"; "NUL"]%string
  ++ map (fun d => str "COM" ++ [d]) (str "123456789")
  ++ map (fun d => str "LPT" ++ [d]) (str "123456789").

Definition notDot (c : ascii) : bool := negb (byte_eqb c ".").

Definition before_first_dot (e : gostring) : gostring := fst (span notDot e).

Definition contains_sub (s sub : gostring) : Prop :=
  exists a b, s = a ++ sub ++ b.

(** A valid element of an import path. *)
Definition elem_valid (e : gostring) : Prop :=
  e <> []
  /\ ~ Forall (eq "."%char) e
  /\ (forall t, e <> "."%char :: t)
  /\ (forall t, e <> t ++ ["."%char])
  /\ Forall import_char e
  /\ (forall bad, In bad reserved_names ->
                  ~ fold_eq bad (before_first_dot e)).

(** A valid import path. *)
Definition import_path_valid (path : gostring) : Prop :=
  ValidString path = true
  /\ path <> []
  /\ ~ contains_sub path (str "..")
  /\ ~ contains_sub path (str "//")
  /\ (forall t, path <> t ++ ["/"%char])
  /\ Forall elem_valid (split_on "/" path).

(** The positions, counted from [i], of the byte [c] in [s]. *)
Fixpoint byte_positions (c : ascii) (i : nat) (s : gostring) : list nat :=
  match s with
  | [] => []
  | b :: t =>
      if byte_eqb b c then i :: byte_positions c (S i) t
      else byte_positions c (S i) t
  end.
Arguments byte_positions c%_char i s.

(** The escaped form: every upper-case ASCII letter becomes ['!'] followed
    by its lower-case equivalent, every other byte passes through. *)
Definition escape_byte (c : ascii) : gostring :=
  if (65 <=? b2z c) && (b2z c <=? 90) then ["!"%char; z2b (b2z c + 32)]
  else [c].

Definition escaped_form (s : gostring) : gostring := flat_map escape_byte s.

(** The strings [escapeString] takes: ASCII without ['!']. *)
Definition plain_byte (c : ascii) : Prop := b2z c < 128 /\ c <> "!"%char.

Definition is_ascii (s : gostring) : Prop := Forall (fun c => b2z c < 128) s.

(** The versions ["v\303\251"] and ["v\303\250"] (an e with acute resp.
    grave accent, in UTF-8). *)
Definition version_e_acute : gostring := str "v" ++ [z2b 195; z2b 169].
Definition version_e_grave : gostring := str "v" ++ [z2b 195; z2b 168].

(** The iterations of [range] at which the rune is ['/']. *)
Definition isSlashAt (ir : nat * Z) : bool := snd ir =? rn "/".

(** The bytes of the first element of a module path: lower-case ASCII
    letters, digits, [-] and [.]. *)
Definition first_chars : gostring :=
  str "-.0123456789abcdefghijklmnopqrstuvwxyz".

(** The leading element of a path, up to its first ['/']. *)
Definition first_element (p : gostring) : gostring := fst (span notSlash p).

(** A valid module path. *)
Definition module_path_valid (p : gostring) : Prop :=
  import_path_valid p
  /\ Forall (fun c => In c first_chars) (first_element p)
  /\ In "."%char (first_element p)
  /\ (forall t, first_element p <> "-"%char :: t)
  /\ snd (SplitPathVersion p) = true.

(** The ASCII bytes of a file path element: letters, digits, the space and
    the punctuation [! # $ % & ( ) + , - . = @ [ ] ^ _ { } ~]. *)
Definition file_chars : gostring :=
  str "0123456789ABCDEFGHIJKLMNOPQRSTUVWXYZabcdefghijklmnopqrstuvwxyz"
  ++ str "!#$%&()+,-.=@[]^_{}~ ".

(** The number a string of decimal digits denotes. *)
Definition decimal (n : gostring) : Z :=
  fold_left (fun acc c => 10 * acc + (b2z c - 48)) n 0.

(** A comparator by byte order, in the place of [semver.Compare]. *)
Definition lex_Compare (a b : gostring) : Z :=
  if strlt a b then -1 else if strlt b a then 1 else 0.

(** The number of upper-case ASCII letters of a string. *)
Definition count_upper (s : gostring) : nat :=
  length (filter (fun c => isUpper (b2z c)) s).

(** A byte that is the same on a case-insensitive medium: ASCII and not an
    upper-case letter. *)
Definition caseless_byte (c : ascii) : Prop :=
  b2z c < 128 /\ isUpper (b2z c) = false.

(** A valid element of a file path, and a valid file path, over ASCII. *)
Definition file_elem_valid (e : gostring) : Prop :=
  e <> []
  /\ ~ Forall (eq "."%char) e
  /\ (forall t, e <> t ++ ["."%char])
  /\ Forall (fun c => In c file_chars) e
  /\ (forall bad, In bad reserved_names ->
                  ~ fold_eq bad (before_first_dot e)).

Definition file_path_valid (path : gostring) : Prop :=
  path <> []
  /\ ~ contains_sub path (str "..")
  /\ ~ contains_sub path (str "//")
  /\ (forall t, path <> t ++ ["/"%char])
  /\ Forall file_elem_valid (split_on "/" path).

(** ** Verification *)

(** *** Bytes *)

Lemma b2z_range (c : ascii) : 0 <= b2z c < 256.
Proof.
  unfold b2z. pose proof (N_ascii_bounded c). lia.
Qed.

Lemma z2b_b2z (c : ascii) : z2b (b2z c) = c.
Proof.
  unfold z2b. pose proof (b2z_range c) as Hr.
  rewrite Z.mod_small by lia. unfold b2z.
  rewrite N2Z.id. apply ascii_N_embedding.
Qed.

Lemma b2z_z2b (z : Z) : 0 <= z < 256 -> b2z (z2b z) = z.
Proof.
  intros Hz. unfold z2b, b2z. rewrite Z.mod_small by lia.
  rewrite N_ascii_embedding by lia. lia.
Qed.

Lemma b2z_inj (a b : ascii) : b2z a = b2z b -> a = b.
Proof.
  intros H. rewrite <- (z2b_b2z a), <- (z2b_b2z b). now rewrite H.
Qed.

Lemma byte_eqb_eq (a b : ascii) : byte_eqb a b = true <-> a = b.
Proof. apply Ascii.eqb_eq. Qed.

Lemma byte_eqb_neq (a b : ascii) : byte_eqb a b = false <-> a <> b.
Proof. apply Ascii.eqb_neq. Qed.

Lemma byte_eqb_refl (a : ascii) : byte_eqb a a = true.
Proof. apply Ascii.eqb_refl. Qed.

Lemma byte_eqb_b2z (a b : ascii) : byte_eqb a b = (b2z a =? b2z b).
Proof.
  destruct (byte_eqb a b) eqn:E.
  - apply byte_eqb_eq in E. subst. symmetry. apply Z.eqb_refl.
  - apply byte_eqb_neq in E. symmetry. apply Z.eqb_neq.
    intros H. apply E. now apply b2z_inj.
Qed.

Lemma streq_eq (s t : gostring) : streq s t = true <-> s = t.
Proof.
  revert t. induction s as [|a s IH]; intros [|b t]; simpl; split;
    try congruence; try reflexivity.
  - intros H. apply andb_true_iff in H as [H1 H2].
    apply byte_eqb_eq in H1. apply IH in H2. congruence.
  - intros H. injection H as -> ->. rewrite byte_eqb_refl. simpl.
    now apply IH.
Qed.

Lemma streq_refl (s : gostring) : streq s s = true.
Proof. now apply streq_eq. Qed.

Lemma streq_neq (s t : gostring) : streq s t = false <-> s <> t.
Proof.
  split.
  - intros H E. apply streq_eq in E. congruence.
  - intros H. destruct (streq s t) eqn:E; [|reflexivity].
    apply streq_eq in E. contradiction.
Qed.

(** *** Strings *)

Lemma HasPrefix_app (p s : gostring) : HasPrefix (p ++ s) p = true.
Proof.
  induction p as [|c p IH]; simpl; [reflexivity|].
  now rewrite byte_eqb_refl.
Qed.

Lemma HasPrefix_inv (s p : gostring) :
  HasPrefix s p = true -> exists t, s = p ++ t.
Proof.
  revert s. induction p as [|c p IH]; intros s H.
  - now exists s.
  - destruct s as [|a s]; simpl in H; [discriminate|].
    apply andb_true_iff in H as [H1 H2]. apply byte_eqb_eq in H1. subst a.
    destruct (IH _ H2) as [t ->]. now exists t.
Qed.

Lemma HasSuffix_app (s suf : gostring) : HasSuffix (s ++ suf) suf = true.
Proof.
  unfold HasSuffix. rewrite length_app.
  replace (length s + length suf - length suf)%nat with (length s + 0)%nat
    by lia.
  rewrite skipn_app, Nat.add_0_r, skipn_all.
  replace (length s - length s)%nat with O by lia. simpl.
  rewrite streq_refl, andb_true_r. apply Nat.leb_le. lia.
Qed.

Lemma HasSuffix_inv (s suf : gostring) :
  HasSuffix s suf = true ->
  s = firstn (length s - length suf) s ++ suf.
Proof.
  unfold HasSuffix. intros H. apply andb_true_iff in H as [_ H].
  apply streq_eq in H.
  pose proof (firstn_skipn (length s - length suf) s) as E.
  rewrite H in E. now symmetry.
Qed.

Lemma HasSuffix_iff (s suf : gostring) :
  HasSuffix s suf = true <-> exists pre, s = pre ++ suf.
Proof.
  split.
  - intros H. eexists. now apply HasSuffix_inv.
  - intros [pre ->]. apply HasSuffix_app.
Qed.

Lemma byteAt_app_l (a b : gostring) (k : nat) :
  (k < length a)%nat -> byteAt (a ++ b) k = byteAt a k.
Proof. intros H. unfold byteAt. now apply app_nth1. Qed.

Lemma byteAt_app_r (a b : gostring) (k : nat) :
  byteAt (a ++ b) (length a + k) = byteAt b k.
Proof.
  unfold byteAt. rewrite app_nth2 by lia. f_equal. lia.
Qed.

Lemma byteAt_middle (a b : gostring) (c : ascii) :
  byteAt (a ++ c :: b) (length a) = c.
Proof.
  rewrite <- (Nat.add_0_r (length a)). now rewrite byteAt_app_r.
Qed.

Lemma firstn_app_exact (a b : gostring) : firstn (length a) (a ++ b) = a.
Proof.
  rewrite firstn_app, firstn_all, Nat.sub_diag. simpl. apply app_nil_r.
Qed.

Lemma skipn_app_exact (a b : gostring) : skipn (length a) (a ++ b) = b.
Proof.
  rewrite skipn_app, skipn_all, Nat.sub_diag. reflexivity.
Qed.

Lemma snoc2_inv (s : gostring) :
  (2 <= length s)%nat -> exists pre x y, s = pre ++ [x; y].
Proof.
  intros H.
  destruct (rev s) as [|y [|x r]] eqn:E;
    try (apply (f_equal (@length ascii)) in E; rewrite length_rev in E;
         simpl in E; lia).
  exists (rev r), x, y. apply (f_equal (@rev ascii)) in E.
  rewrite rev_involutive in E. subst s. simpl.
  now rewrite <- app_assoc.
Qed.

Lemma HasSuffix2 (s : gostring) (a b : ascii) :
  HasSuffix s [a; b] =
  (2 <=? length s)%nat
  && byte_eqb (byteAt s (length s - 2)) a
  && byte_eqb (byteAt s (length s - 1)) b.
Proof.
  destruct (Nat.leb_spec 2 (length s)) as [H|H].
  - destruct (snoc2_inv s H) as (pre & x & y & ->).
    unfold HasSuffix. rewrite length_app. simpl length.
    replace (length pre + 2 - 2)%nat with (length pre) by lia.
    replace (length pre + 2 - 1)%nat with (length pre + 1)%nat by lia.
    rewrite skipn_app_exact, byteAt_middle, byteAt_app_r.
    replace (2 <=? length pre + 2)%nat with true
      by (symmetry; apply Nat.leb_le; lia).
    simpl. now rewrite andb_true_r.
  - unfold HasSuffix. simpl length.
    replace (2 <=? length s)%nat with false
      by (symmetry; apply Nat.leb_gt; lia).
    reflexivity.
Qed.

(** *** Backward scans *)

Lemma span_spec (p : ascii -> bool) (v d r : gostring) :
  span p v = (d, r) ->
  v = d ++ r /\ forallb p d = true
  /\ match r with [] => True | c :: _ => p c = false end.
Proof.
  revert d r. induction v as [|c v IH]; intros d r H; simpl in H.
  - injection H as <- <-. auto.
  - destruct (p c) eqn:Hp.
    + destruct (span p v) as [d' r'] eqn:E. injection H as <- <-.
      destruct (IH _ _ eq_refl) as (-> & Hd & Hr).
      simpl. rewrite Hp. auto.
    + injection H as <- <-. simpl. auto.
Qed.

Lemma trailing_run_spec (p : ascii -> bool) (s pre run : gostring) :
  trailing_run p s = (pre, run) ->
  s = pre ++ run /\ forallb p run = true.
Proof.
  unfold trailing_run. destruct (span p (rev s)) as [r rest] eqn:E.
  intros H. injection H as <- <-.
  destruct (span_spec _ _ _ _ E) as (Hs & Hr & _). split.
  - apply (f_equal (@rev ascii)) in Hs.
    now rewrite rev_involutive, rev_app_distr in Hs.
  - rewrite forallb_forall in *. intros x Hx. apply Hr.
    now apply in_rev.
Qed.

Lemma trailing_run_snoc (p : ascii -> bool) (s : gostring) (c : ascii) :
  trailing_run p (s ++ [c]) =
  if p c then let '(pre, run) := trailing_run p s in (pre, run ++ [c])
  else (s ++ [c], []).
Proof.
  unfold trailing_run. rewrite rev_unit. simpl.
  destruct (p c).
  - destruct (span p (rev s)) as [d r]. reflexivity.
  - simpl. now rewrite rev_involutive.
Qed.

Lemma has_dot_snoc (s : gostring) (c : ascii) :
  has_dot (s ++ [c]) = has_dot s || byte_eqb c ".".
Proof.
  unfold has_dot. rewrite existsb_app. simpl. now rewrite orb_false_r.
Qed.

Lemma scanDigitsDots_spec (a b : gostring) (dot : bool) :
  scanDigitsDots (a ++ b) (length a) dot =
  let '(pre, run) := trailing_run isDigitOrDot a in
  (length pre, dot || has_dot run).
Proof.
  revert b dot. induction a as [|c a IH] using rev_ind; intros b dot.
  - simpl. now rewrite orb_false_r.
  - rewrite length_app, Nat.add_comm. simpl.
    rewrite <- app_assoc. simpl. rewrite byteAt_middle.
    rewrite trailing_run_snoc.
    change (byte_leb "0" c && byte_leb c "9" || byte_eqb c ".")
      with (isDigitOrDot c).
    destruct (isDigitOrDot c) eqn:Hc.
    + rewrite IH. destruct (trailing_run isDigitOrDot a) as [pre run].
      rewrite has_dot_snoc.
      destruct (byte_eqb c "."), dot, (has_dot run); reflexivity.
    + rewrite length_app, Nat.add_comm. simpl. now rewrite orb_false_r.
Qed.

Lemma scanDigits_spec (a b : gostring) :
  scanDigits (a ++ b) (length a) =
  length (fst (trailing_run isDigitB a)).
Proof.
  revert b. induction a as [|c a IH] using rev_ind; intros b.
  - reflexivity.
  - rewrite length_app, Nat.add_comm. simpl.
    rewrite <- app_assoc. simpl. rewrite byteAt_middle.
    rewrite trailing_run_snoc.
    change (byte_leb "0" c && byte_leb c "9") with (isDigitB c).
    destruct (isDigitB c) eqn:Hc.
    + rewrite IH. now destruct (trailing_run isDigitB a).
    + simpl. rewrite length_app, Nat.add_comm. reflexivity.
Qed.

(** *** The generic dialect of the splitter *)

Lemma SplitPathVersion_generic (path : gostring) :
  HasPrefix path (str "gopkg.in/") = false ->
  SplitPathVersion path = generic_split path.
Proof.
  intros Hg. unfold SplitPathVersion, generic_split. rewrite Hg.
  pose proof (scanDigitsDots_spec path [] false) as Hs.
  rewrite app_nil_r in Hs. rewrite Hs. clear Hs.
  destruct (trailing_run isDigitOrDot path) as [pre run] eqn:E.
  destruct (trailing_run_spec _ _ _ _ E) as [-> _]. simpl orb.
  destruct (HasSuffix pre (str "/v")) eqn:Hsuf.
  - apply HasSuffix_iff in Hsuf as [pre' ->].
    clear Hg E. rewrite !length_app.
    change (str "/v") with ["/"%char; "v"%char].
    rewrite <- !app_assoc. simpl app. simpl length.
    replace (length pre' + 2 - 2)%nat with (length pre') by lia.
    replace (length pre' + 2 - 1)%nat with (length pre' + 1)%nat by lia.
    rewrite byteAt_app_r, byteAt_middle, firstn_app_exact, skipn_app_exact.
    replace (pre' ++ ["/"%char; "v"%char]) with (pre' ++ ["/"%char; "v"%char] ++ [])
      by reflexivity.
    rewrite firstn_app_exact.
    replace (length pre' + 2 <=? 1)%nat with false
      by (symmetry; apply Nat.leb_gt; lia).
    destruct run as [|c run].
    + simpl. now rewrite Nat.add_0_r, Nat.eqb_refl.
    + replace (length pre' + 2 =? length pre' + 2 + length (c :: run))%nat
        with false by (symmetry; apply Nat.eqb_neq; simpl; lia).
      unfold byteAt. simpl. now rewrite orb_false_r.
  - simpl andb. change (str "/v") with ["/"%char; "v"%char] in Hsuf.
    rewrite HasSuffix2 in Hsuf.
    destruct (Nat.leb_spec (length pre) 1) as [H1|H1]; [reflexivity|].
    replace (2 <=? length pre)%nat with true in Hsuf
      by (symmetry; apply Nat.leb_le; lia).
    rewrite !byteAt_app_l by lia. simpl in Hsuf. simpl orb.
    destruct (byte_eqb (byteAt pre (length pre - 2)) "/");
      destruct (byte_eqb (byteAt pre (length pre - 1)) "v");
      try discriminate; simpl; rewrite ?orb_true_r; reflexivity.
Qed.

(** *** The legacy dialect of the splitter *)

Lemma gopkg_marker_cases (path : gostring) :
  let marker := gopkg_marker path in
  let base := firstn (length path - length marker) path in
  path = base ++ marker
  /\ (marker = [] \/ marker = str "-unstable")
  /\ (if HasSuffix path (str "-unstable")
      then (length path - length (str "-unstable"))%nat
      else length path) = length base.
Proof.
  unfold gopkg_marker.
  destruct (HasSuffix path (str "-unstable")) eqn:H; cbv zeta.
  - pose proof (HasSuffix_inv _ _ H) as E. repeat split; auto.
    apply HasSuffix_iff in H as [pre ->].
    rewrite length_app, Nat.add_sub, firstn_app_exact. reflexivity.
  - simpl length. rewrite Nat.sub_0_r, firstn_all, app_nil_r. auto.
Qed.

Lemma SplitPathVersion_gopkg (path : gostring) :
  HasPrefix path (str "gopkg.in/") = true ->
  SplitPathVersion path = gopkg_split path.
Proof.
  intros Hg. unfold SplitPathVersion, splitGopkgIn, gopkg_split.
  rewrite Hg. change (negb true) with false. cbv iota zeta.
  destruct (gopkg_marker_cases path) as (Hp & Hm & Hi). cbv zeta in *.
  rewrite !Hi. clear Hi Hg.
  set (marker := gopkg_marker path) in *.
  set (base := firstn (length path - length marker) path) in *.
  clearbody base marker. subst path.
  rewrite scanDigits_spec.
  destruct (trailing_run isDigitB base) as [pre run] eqn:E.
  destruct (trailing_run_spec _ _ _ _ E) as [-> _]. clear E. simpl fst.
  change (str ".v") with ["."%char; "v"%char].
  destruct (HasSuffix pre ["."%char; "v"%char]) eqn:Hsuf.
  - apply HasSuffix_iff in Hsuf as [pre' ->].
    rewrite !length_app. simpl length.
    replace (length pre' + 2 - 2)%nat with (length pre') by lia.
    replace (length pre' + 2 - 1)%nat with (length pre' + 1)%nat by lia.
    replace (length pre' + 2 <=? 1)%nat with false
      by (symmetry; apply Nat.leb_gt; lia).
    replace (pre' ++ ["."%char; "v"%char])
      with (pre' ++ ["."%char; "v"%char] ++ []) at 3 by reflexivity.
    rewrite firstn_app_exact.
    rewrite <- !app_assoc. simpl app.
    rewrite byteAt_app_r, byteAt_middle, firstn_app_exact, skipn_app_exact.
    unfold byteAt. simpl.
    destruct run as [|c run]; simpl.
    + destruct Hm as [-> | ->]; reflexivity.
    + destruct (byte_eqb c "0"), (streq (run ++ marker) []); reflexivity.
  - simpl andb. rewrite HasSuffix2 in Hsuf.
    destruct (Nat.leb_spec (length pre) 1) as [H1|H1]; [reflexivity|].
    replace (2 <=? length pre)%nat with true in Hsuf
      by (symmetry; apply Nat.leb_le; lia).
    rewrite <- !app_assoc.
    rewrite !byteAt_app_l by lia. simpl in Hsuf. simpl orb.
    destruct (byte_eqb (byteAt pre (length pre - 2)) ".");
      destruct (byte_eqb (byteAt pre (length pre - 1)) "v");
      try discriminate; simpl; rewrite ?orb_true_r; reflexivity.
Qed.

(** C10: for every path, on either dialect and whatever [ok] is, the prefix
    and the suffix returned by [SplitPathVersion] concatenate to the path;
    on failure the prefix is the whole path and the suffix is empty. *)
Theorem SplitPathVersion_concat (path : gostring) :
  let '(prefix, pathMajor, ok) := SplitPathVersion path in
  prefix ++ pathMajor = path
  /\ (ok = false -> prefix = path /\ pathMajor = []).
Proof.
  unfold SplitPathVersion, splitGopkgIn.
  destruct (scanDigitsDots path (length path) false) as [i dot].
  cbv zeta.
  repeat match goal with
         | |- context [if ?b then _ else _] => destruct b
         end;
    (split; [first [apply app_nil_r | apply firstn_skipn]
            | intros H; first [discriminate H | split; reflexivity]]).
Qed.

(** C4 (as the code has it): on a path outside the legacy dialect,
    [SplitPathVersion] fails exactly when the path ends in [/v] followed by
    a non-empty run of digits and dots, and the run has a dot, or starts
    with [0], or is exactly [1]; then it returns the path before the [/v]
    and the suffix [/v] with the run; without such an ending, a bare
    trailing [/v] included, it returns the whole path, an empty suffix and
    [ok = true]. *)
Theorem SplitPathVersion_generic_spec (path : gostring) :
  HasPrefix path (str "gopkg.in/") = false ->
  let '(pre, run) := trailing_run isDigitOrDot path in
  let candidate := HasSuffix pre (str "/v") = true /\ run <> [] in
  let malformed := has_dot run = true \/ starts_with_zero run = true
                   \/ run = str "1" in
  (snd (SplitPathVersion path) = false <-> candidate /\ malformed)
  /\ (candidate -> ~ malformed ->
      exists prefix, pre = prefix ++ str "/v"
        /\ SplitPathVersion path = (prefix, str "/v" ++ run, true))
  /\ (~ candidate -> SplitPathVersion path = (path, [], true)).
Proof.
  intros Hg. rewrite (SplitPathVersion_generic path Hg).
  unfold generic_split.
  destruct (trailing_run isDigitOrDot path) as [pre run]. cbv zeta.
  pose proof (proj1 (streq_eq run (str "1"))) as Hone.
  pose proof (proj2 (streq_eq run (str "1"))) as Hone'.
  assert (Hnil : is_nil run = true <-> run = [])
    by (destruct run; simpl; split; congruence).
  destruct Hnil as [Hnil Hnil'].
  destruct (HasSuffix pre (str "/v")) eqn:Hsuf; cbn [andb].
  - apply HasSuffix_iff in Hsuf as [prefix ->].
    rewrite length_app. change (length (str "/v")) with 2%nat.
    rewrite Nat.add_sub.
    replace (firstn (length prefix) (prefix ++ str "/v")) with prefix
      by (symmetry; replace (prefix ++ str "/v")
                      with (prefix ++ str "/v" ++ []) by reflexivity;
          apply firstn_app_exact).
    destruct (is_nil run) eqn:Hn, (has_dot run) eqn:Hd,
      (starts_with_zero run) eqn:Hz, (streq run (str "1")) eqn:H1;
      cbn [negb orb snd];
      (split; [|split]);
      try solve [intuition (try discriminate; try congruence)];
      intros; exists prefix; split; reflexivity.
  - cbv iota. cbn [snd]. intuition (try discriminate; try congruence).
Qed.

Lemma SplitPathVersion_generic_spec_witness :
  HasPrefix (str "example.com/pkg/v1") (str "gopkg.in/") = false
  /\ snd (SplitPathVersion (str "example.com/pkg/v1")) = false.
Proof.
  split; [reflexivity|].
  apply (proj1 (SplitPathVersion_generic_spec (str "example.com/pkg/v1")
                  eq_refl)).
  simpl. repeat split; try discriminate. right. right. reflexivity.
Defined.

(** C4, counterexample: the path ["example.com/pkg/v"] ends in a bare [/v],
    which the stated rule rejects (suffix of 2 characters), while
    [SplitPathVersion] accepts it with an empty suffix. *)
Lemma SplitPathVersion_bare_v_accepted :
  HasPrefix (str "example.com/pkg/v") (str "gopkg.in/") = false
  /\ stated_generic_reject (str "example.com/pkg/v") = true
  /\ SplitPathVersion (str "example.com/pkg/v")
     = (str "example.com/pkg/v", [], true).
Proof. repeat split. Qed.



(** *** Module paths are import paths *)

(** C7: the module-path check is strictly stronger than the import-path
    check: a path that passes [CheckPath] passes [CheckImportPath], and
    some import path is not a module path. *)
Theorem CheckPath_CheckImportPath (U : unicode_tables) :
  (forall p, CheckPath U p = None -> CheckImportPath U p = None)
  /\ (exists p, CheckImportPath U p = None /\ CheckPath U p <> None).
Proof.
  split.
  - intros p. unfold CheckPath, CheckImportPath.
    destruct (checkPath U p false); [discriminate | reflexivity].
  - exists (str "Example.com/pkg"). split; [reflexivity | discriminate].
Qed.

Lemma CheckPath_CheckImportPath_witness :
  (forall U, CheckPath U (str "example.com/pkg") = None)
  /\ (forall U, CheckImportPath U (str "example.com/pkg") = None).
Proof.
  split; intros U.
  - reflexivity.
  - apply (proj1 (CheckPath_CheckImportPath U)). reflexivity.
Defined.

(** *** Major-version matching *)

Lemma TrimSuffix_app (s suf : gostring) : TrimSuffix (s ++ suf) suf = s.
Proof.
  unfold TrimSuffix. rewrite HasSuffix_app, length_app, Nat.add_sub.
  apply firstn_app_exact.
Qed.

Lemma digits_not_unstable (n : gostring) :
  forallb isDigitB n = true ->
  HasSuffix (str ".v" ++ n) (str "-unstable") = false.
Proof.
  intros Hn. destruct (HasSuffix _ _) eqn:H; [|reflexivity]. exfalso.
  apply HasSuffix_iff in H as [pre H].
  assert (He : last (str ".v" ++ n) zero = "e"%char).
  { rewrite H. change (str "-unstable") with (str "-unstabl" ++ ["e"%char]).
    rewrite app_assoc. apply last_last. }
  clear H. destruct n as [|c n _] using rev_ind.
  - discriminate He.
  - rewrite app_assoc, last_last in He. subst c.
    rewrite forallb_app in Hn. apply andb_true_iff in Hn as [_ Hn].
    discriminate Hn.
Qed.

Lemma MatchPathMajor_empty (sv : semver_pkg) (v : gostring) :
  MatchPathMajor sv v [] =
  streq (semver_Major sv v) (str "v0") || streq (semver_Major sv v) (str "v1")
  || streq (semver_Build sv v) (str "+incompatible").
Proof.
  unfold MatchPathMajor. cbn [HasPrefix str list_ascii_of_string andb].
  change (streq [] (str ".v1")) with false. now rewrite andb_false_r.
Qed.

Lemma MatchPathMajor_slash (sv : semver_pkg) (v n : gostring) :
  MatchPathMajor sv v (str "/v" ++ n) =
  streq (semver_Major sv v) (str "v" ++ n).
Proof.
  unfold MatchPathMajor. simpl. now rewrite andb_false_r.
Qed.

Lemma MatchPathMajor_dot_trimmed (sv : semver_pkg) (v n : gostring) :
  (if HasPrefix v (str "v0.0.0-") && streq (str ".v" ++ n) (str ".v1")
   then true
   else
     if streq (str ".v" ++ n) [] then false
     else (byte_eqb (byteAt (str ".v" ++ n) 0) "/"
           || byte_eqb (byteAt (str ".v" ++ n) 0) ".")
          && streq (semver_Major sv v) (skipn 1 (str ".v" ++ n)))
  = HasPrefix v (str "v0.0.0-") && streq n (str "1")
    || streq (semver_Major sv v) (str "v" ++ n).
Proof.
  change (streq (str ".v" ++ n) (str ".v1")) with (streq n (str "1")).
  simpl. destruct (HasPrefix v (str "v0.0.0-") && streq n (str "1"));
    reflexivity.
Qed.

Lemma MatchPathMajor_dot (sv : semver_pkg) (v n marker : gostring) :
  forallb isDigitB n = true ->
  marker = [] \/ marker = str "-unstable" ->
  MatchPathMajor sv v (str ".v" ++ n ++ marker) =
  HasPrefix v (str "v0.0.0-") && streq n (str "1")
  || streq (semver_Major sv v) (str "v" ++ n).
Proof.
  intros Hn Hm. rewrite <- MatchPathMajor_dot_trimmed.
  unfold MatchPathMajor.
  change (HasPrefix (str ".v" ++ n ++ marker) (str ".v")) with true.
  cbn [andb].
  destruct Hm as [-> | ->].
  - rewrite app_nil_r, (digits_not_unstable n Hn). reflexivity.
  - rewrite app_assoc, HasSuffix_app, TrimSuffix_app.
    destruct (HasPrefix v (str "v0.0.0-") && streq (str ".v" ++ n) (str ".v1"));
      [reflexivity|].
    destruct (streq (str ".v" ++ n) []) eqn:E; [discriminate E|].
    reflexivity.
Qed.

Lemma SplitPathVersion_shape (path prefix pathMajor : gostring) :
  SplitPathVersion path = (prefix, pathMajor, true) ->
  pathMajor = []
  \/ (exists n, pathMajor = str "/v" ++ n)
  \/ (exists n marker, pathMajor = str ".v" ++ n ++ marker
                       /\ forallb isDigitB n = true
                       /\ (marker = [] \/ marker = str "-unstable")).
Proof.
  destruct (HasPrefix path (str "gopkg.in/")) eqn:Hg.
  - rewrite (SplitPathVersion_gopkg path Hg). unfold gopkg_split.
    destruct (gopkg_marker_cases path) as (_ & Hm & _). cbv zeta in Hm.
    destruct (trailing_run isDigitB _) as [pre run] eqn:E.
    destruct (trailing_run_spec _ _ _ _ E) as [_ Hd].
    destruct (_ && _); intros H; inversion H; subst.
    right. right. exists run, (gopkg_marker path). auto.
  - rewrite (SplitPathVersion_generic path Hg). unfold generic_split.
    destruct (trailing_run isDigitOrDot path) as [pre run].
    destruct (_ && _); [destruct (_ || _)|]; intros H; inversion H; subst;
      [right; left; eexists; reflexivity | left; reflexivity].
Qed.

Lemma digits_marker_unique (n n' marker marker' : gostring) :
  forallb isDigitB n = true -> forallb isDigitB n' = true ->
  marker = [] \/ marker = str "-unstable" ->
  marker' = [] \/ marker' = str "-unstable" ->
  n ++ marker = n' ++ marker' -> n = n' /\ marker = marker'.
Proof.
  assert (Hno : forall a b, forallb isDigitB a = true ->
                            a <> b ++ str "-unstable").
  { intros a b Ha ->. rewrite forallb_app in Ha.
    apply andb_true_iff in Ha as [_ Ha]. discriminate Ha. }
  intros Hn Hn' [-> | ->] [-> | ->] H.
  - rewrite !app_nil_r in H. auto.
  - rewrite app_nil_r in H. now apply Hno in H.
  - rewrite app_nil_r in H. symmetry in H. now apply Hno in H.
  - apply app_inv_tail in H. auto.
Qed.

Lemma MatchPathMajor_matches (sv : semver_pkg) (v path prefix pathMajor : gostring) :
  SplitPathVersion path = (prefix, pathMajor, true) ->
  MatchPathMajor sv v pathMajor = true <-> major_matches sv v pathMajor.
Proof.
  intros Hs. unfold major_matches.
  destruct (SplitPathVersion_shape _ _ _ Hs)
    as [-> | [[n ->] | (n & marker & -> & Hn & Hm)]].
  - rewrite MatchPathMajor_empty, !orb_true_iff, !streq_eq. split.
    + intros H. left. tauto.
    + intros [[_ H] | [[n [H _]] | (n & marker & H & _)]];
        [tauto | discriminate H | discriminate H].
  - rewrite MatchPathMajor_slash, streq_eq. split.
    + intros H. right. left. eauto.
    + intros [[H _] | [[n' [H H']] | (n' & marker & H & _)]];
        [discriminate H | | discriminate H].
      apply app_inv_head in H. subst n'. exact H'.
  - rewrite (MatchPathMajor_dot sv v n marker Hn Hm).
    rewrite orb_true_iff, andb_true_iff, !streq_eq. split.
    + intros H. right. right. exists n, marker. tauto.
    + intros [[H _] | [[n' [H _]] | (n' & marker' & H & Hn' & Hm' & H')]];
        [discriminate H | discriminate H |].
      apply app_inv_head in H.
      destruct (digits_marker_unique _ _ _ _ Hn Hn' Hm Hm' H) as [-> ->].
      tauto.
Qed.

Lemma CheckPath_split_ok (U : unicode_tables) (path : gostring) :
  CheckPath U path = None -> snd (SplitPathVersion path) = true.
Proof.
  unfold CheckPath.
  destruct (checkPath U path false); [discriminate|].
  destruct (Nat.eqb _ 0); [discriminate|].
  destruct (negb (Contains _ _)); [discriminate|].
  destruct (byte_eqb _ _); [discriminate|].
  destruct (find _ _); [discriminate|].
  destruct (SplitPathVersion path) as [[prefix pathMajor] [|]];
    [reflexivity | discriminate].
Qed.

Lemma wanted_major_computed (path prefix pathMajor : gostring) :
  SplitPathVersion path = (prefix, pathMajor, true) ->
  wanted_major pathMajor
    (let pm := if streq pathMajor [] then str "v0 or v1" else pathMajor in
     if byte_eqb (byteAt pm 0) "." then skipn 1 pm else pm).
Proof.
  intros Hs. unfold wanted_major.
  destruct (SplitPathVersion_shape _ _ _ Hs)
    as [-> | [[n ->] | (n & marker & -> & Hn & Hm)]].
  - left. split; reflexivity.
  - right. left. exists n. split; reflexivity.
  - right. right. exists n, marker. split; reflexivity.
Qed.

(** C3 (as the code has it): [Check] succeeds exactly when the path passes
    [CheckPath], the version is a valid semantic version, and the version
    matches the major-version suffix of the path: no suffix takes major
    [v0] or [v1] or a build tag [+incompatible]; [/vN] takes major [vN];
    the legacy [.vN] (with or without [-unstable]) takes major [vN], and
    [.v1] also a version starting with [v0.0.0-].  On a mismatch the error
    names the expected major version: [v0 or v1] without suffix, [/vN] for
    a suffix [/vN], and the suffix less its dot on the legacy dialect. *)
Theorem Check_spec (U : unicode_tables) (sv : semver_pkg)
  (path version : gostring) :
  let pathMajor := snd (fst (SplitPathVersion path)) in
  (Check U sv path version = None <->
   CheckPath U path = None /\ semver_IsValid sv version = true
   /\ major_matches sv version pathMajor)
  /\ (CheckPath U path = None -> semver_IsValid sv version = true ->
      ~ major_matches sv version pathMajor ->
      exists want,
        wanted_major pathMajor want
        /\ Check U sv path version =
           Some (Errorf "mismatched module path %v and version %v (want %v)"
                   [ArgStr path; ArgStr version; ArgStr want])).
Proof.
  cbv zeta. unfold Check.
  destruct (CheckPath U path) as [err|] eqn:Hc.
  - split; [split; [discriminate | intros [H _]; discriminate H]
           | intros H; discriminate H].
  - pose proof (CheckPath_split_ok U path Hc) as Hok.
    destruct (SplitPathVersion path) as [[prefix pathMajor] ok] eqn:Hs.
    simpl in Hok. subst ok. cbn [fst snd].
    pose proof (MatchPathMajor_matches sv version _ _ _ Hs) as Hm.
    pose proof (wanted_major_computed _ _ _ Hs) as Hw.
    destruct (semver_IsValid sv version); cbn [negb].
    + destruct (MatchPathMajor sv version pathMajor); cbn [negb].
      * split; [tauto|]. intros _ _ H. exfalso. apply H, Hm. reflexivity.
      * split.
        -- split; [discriminate|]. intros (_ & _ & H). apply Hm in H.
           discriminate H.
        -- intros _ _ _. eexists. split; [exact Hw | reflexivity].
    + split; [split; [discriminate | intros (_ & H & _); discriminate H]
             | intros _ H; discriminate H].
Qed.

Lemma Check_spec_witness :
  (forall U, CheckPath U (str "example.com/pkg/v2") = None)
  /\ semver_IsValid semver_model (str "v1.0.0") = true
  /\ ~ major_matches semver_model (str "v1.0.0") (str "/v2")
  /\ (forall U, exists want,
        wanted_major (str "/v2") want
        /\ Check U semver_model (str "example.com/pkg/v2") (str "v1.0.0") =
           Some (Errorf "mismatched module path %v and version %v (want %v)"
                   [ArgStr (str "example.com/pkg/v2"); ArgStr (str "v1.0.0");
                    ArgStr want])).
Proof.
  assert (Hno : ~ major_matches semver_model (str "v1.0.0") (str "/v2")).
  { intros [[H _] | [(n & H & Hm) | (n & marker & H & _)]];
      try discriminate H.
    injection H as <-. discriminate Hm. }
  split; [reflexivity|]. split; [reflexivity|]. split; [exact Hno|].
  intros U.
  exact (proj2 (Check_spec U semver_model (str "example.com/pkg/v2")
                  (str "v1.0.0")) eq_refl eq_refl Hno).
Defined.

(** C3, counterexample: the path ["example.com/pkg"] carries no suffix and
    the version ["v3.0.0+incompatible"] has major [v3], neither [v0] nor
    [v1]; yet [Check] succeeds. *)
Lemma Check_incompatible_v3 :
  snd (fst (SplitPathVersion (str "example.com/pkg"))) = []
  /\ semver_Major semver_model (str "v3.0.0+incompatible") = str "v3"
  /\ (forall U, Check U semver_model (str "example.com/pkg")
                  (str "v3.0.0+incompatible") = None).
Proof. repeat split. Qed.

(** The examples of major-version matching in the specification. *)
Lemma Check_examples (U : unicode_tables) :
  Check U semver_model (str "example.com/pkg/v2") (str "v2.0.0") = None
  /\ Check U semver_model (str "example.com/pkg/v2") (str "v1.0.0")
     = Some (Errorf "mismatched module path %v and version %v (want %v)"
               [ArgStr (str "example.com/pkg/v2"); ArgStr (str "v1.0.0");
                ArgStr (str "/v2")])
  /\ Check U semver_model (str "example.com/pkg") (str "v1.0.0") = None
  /\ Check U semver_model (str "example.com/pkg") (str "v3.0.0")
     = Some (Errorf "mismatched module path %v and version %v (want %v)"
               [ArgStr (str "example.com/pkg"); ArgStr (str "v3.0.0");
                ArgStr (str "v0 or v1")]).
Proof. repeat split. Qed.

(** C9: with an empty path-major suffix, [MatchPathMajor] accepts every
    version whose build tag is exactly [+incompatible], whatever its major
    component; so [Check] accepts such a version, once valid, on every
    module path without suffix. *)
Theorem MatchPathMajor_incompatible (U : unicode_tables) (sv : semver_pkg)
  (path v : gostring) :
  semver_Build sv v = str "+incompatible" ->
  MatchPathMajor sv v [] = true
  /\ (CheckPath U path = None -> snd (fst (SplitPathVersion path)) = [] ->
      semver_IsValid sv v = true -> Check U sv path v = None).
Proof.
  intros Hb.
  assert (Hm : MatchPathMajor sv v [] = true).
  { rewrite MatchPathMajor_empty, Hb, streq_refl. apply orb_true_r. }
  split; [exact Hm|].
  intros Hc Hs Hv. unfold Check. rewrite Hc, Hv.
  destruct (SplitPathVersion path) as [[prefix pathMajor] ok].
  simpl in Hs. subst pathMajor. now rewrite Hm.
Qed.

Lemma MatchPathMajor_incompatible_witness :
  semver_Build semver_model (str "v3.0.0+incompatible") = str "+incompatible"
  /\ semver_Major semver_model (str "v3.0.0+incompatible") = str "v3"
  /\ (forall U, Check U semver_model (str "example.com/pkg")
                  (str "v3.0.0+incompatible") = None).
Proof.
  split; [reflexivity|]. split; [reflexivity|]. intros U.
  apply (proj2 (MatchPathMajor_incompatible U semver_model
                  (str "example.com/pkg") (str "v3.0.0+incompatible")
                  eq_refl));
    reflexivity.
Defined.

(** *** The comparator of [Sort] *)

Lemma strlt_lex (s t : gostring) : strlt s t = true <-> lex_lt s t.
Proof.
  revert t. induction s as [|a s IH]; intros [|b t]; simpl.
  - split; [discriminate | inversion 1].
  - split; [constructor | reflexivity].
  - split; [discriminate | inversion 1].
  - destruct (Z.ltb_spec (b2z a) (b2z b)) as [H|H].
    + split; [now constructor | reflexivity].
    + destruct (Z.ltb_spec (b2z b) (b2z a)) as [H'|H'].
      * split; [discriminate|]. inversion 1; subst; lia.
      * assert (a = b) by (apply b2z_inj; lia). subst b.
        rewrite IH. split; [now apply lex_lt_tail|].
        inversion 1; subst; [lia | assumption].
Qed.

Lemma lex_lt_irrefl (s : gostring) : ~ lex_lt s s.
Proof.
  induction s as [|a s IH]; inversion 1; subst; [lia | contradiction].
Qed.

Lemma lex_lt_trans (s t u : gostring) :
  lex_lt s t -> lex_lt t u -> lex_lt s u.
Proof.
  intros H. revert u. induction H; intros u Hu; inversion Hu; subst;
    solve [apply lex_lt_nil | apply lex_lt_head; lia
          | apply lex_lt_tail; auto].
Qed.

Lemma lex_lt_total (s t : gostring) : lex_lt s t \/ s = t \/ lex_lt t s.
Proof.
  revert t. induction s as [|a s IH]; intros [|b t].
  - auto.
  - left. constructor.
  - right. right. constructor.
  - destruct (Z.lt_total (b2z a) (b2z b)) as [H | [H | H]].
    + left. now constructor.
    + apply b2z_inj in H. subst b.
      destruct (IH t) as [H | [-> | H]];
        [left; now apply lex_lt_tail | right; now left
        | right; right; now apply lex_lt_tail].
    + right. right. now constructor.
Qed.

Lemma Index_slash_span (v : gostring) :
  match Index v (str "/") with
  | Some k => (firstn k v, skipn k v)
  | None => (v, [])
  end = span notSlash v.
Proof.
  change (str "/") with ["/"%char].
  induction v as [|c v IH]; [reflexivity|].
  simpl. unfold notSlash at 1.
  destruct (byte_eqb c "/"); simpl; [reflexivity|].
  rewrite <- IH.
  destruct (Index v ["/"%char]); reflexivity.
Qed.



(** *** UTF-8 decoding *)

Lemma lor_ge_l (a b : Z) : 0 <= a -> 0 <= b -> a <= Z.lor a b.
Proof.
  intros Ha Hb. apply (Z.ldiff_le a (Z.lor a b)).
  - now apply Z.lor_nonneg.
  - apply Z.bits_inj'. intros n Hn.
    rewrite Z.ldiff_spec, Z.lor_spec, Z.bits_0.
    destruct (Z.testbit a n); reflexivity.
Qed.

Lemma lor_ge_r (a b : Z) : 0 <= a -> 0 <= b -> b <= Z.lor a b.
Proof. intros Ha Hb. rewrite Z.lor_comm. now apply lor_ge_l. Qed.

Lemma land_low_bits (s : Z) (n : Z) :
  0 <= n -> Z.land s (Z.ones n) = s mod 2 ^ n.
Proof. intros Hn. now apply Z.land_ones. Qed.

(** The masks and shifts of the decoder as remainders and products. *)
Ltac norm_bits :=
  change 31 with (Z.ones 5); change 15 with (Z.ones 4);
  change 7 with (Z.ones 3); change 63 with (Z.ones 6);
  rewrite ?land_low_bits by lia;
  change (2 ^ 3) with 8; change (2 ^ 4) with 16;
  change (2 ^ 5) with 32; change (2 ^ 6) with 64;
  rewrite ?Z.shiftl_mul_pow2 by lia;
  change (2 ^ 6) with 64; change (2 ^ 12) with 4096;
  change (2 ^ 18) with 262144.

Ltac mod_lia := Z.div_mod_to_equations; lia.

Lemma first_spec (s0 : Z) (sz : nat) (lo hi : Z) :
  first s0 = Some (sz, lo, hi) ->
  128 <= lo /\ hi <= 191
  /\ ((sz = 2%nat /\ 194 <= s0 <= 223)
      \/ (sz = 3%nat /\ ((s0 = 224 /\ lo = 160) \/ 225 <= s0 <= 239))
      \/ (sz = 4%nat /\ ((s0 = 240 /\ lo = 144) \/ 241 <= s0 <= 244))).
Proof.
  unfold first.
  repeat match goal with
         | |- context [if ?b then _ else _] => destruct b eqn:?
         end;
    intros H; inversion H; subst; clear H;
    repeat match goal with
           | H : _ && _ = true |- _ => apply andb_true_iff in H as [? ?]
           | H : (_ <=? _) = true |- _ => apply Z.leb_le in H
           | H : (_ =? _) = true |- _ => apply Z.eqb_eq in H
           end;
    lia.
Qed.

Lemma contb_ge (b : Z) : contb b = true -> 128 <= b.
Proof.
  unfold contb. intros H. apply andb_true_iff in H as [H _].
  now apply Z.leb_le in H.
Qed.

Lemma DecodeRune_ascii (c : ascii) (t : gostring) :
  b2z c < 128 -> DecodeRuneInString (c :: t) = (b2z c, 1%nat).
Proof.
  intros H. unfold DecodeRuneInString, decodeSeq, RuneSelf.
  now replace (b2z c <? 128) with true by (symmetry; now apply Z.ltb_lt).
Qed.

Lemma decodeSeq_nonascii (c : ascii) (t : gostring) (r : Z) (w : nat) :
  128 <= b2z c -> decodeSeq (c :: t) = Some (r, w) ->
  128 <= r /\ Forall (fun b => 128 <= b2z b) (firstn (w - 1) t).
Proof.
  intros Hc. unfold decodeSeq, RuneSelf.
  replace (b2z c <? 128) with false by (symmetry; apply Z.ltb_ge; lia).
  destruct (first (b2z c)) as [[[sz lo] hi]|] eqn:Hf; [|discriminate].
  destruct (first_spec _ _ _ _ Hf) as (Hlo & Hhi & Hsz).
  pose proof (b2z_range c) as Hr.
  destruct Hsz as [[-> Hs] | [[-> Hs] | [-> Hs]]].
  - destruct t as [|c1 t]; [discriminate|]. norm_bits.
    destruct (_ && _) eqn:Hb; [|discriminate].
    intros H. inversion H; subst; clear H.
    apply andb_true_iff in Hb as [H1 _]. apply Z.leb_le in H1.
    split; [|repeat constructor; lia].
    etransitivity; [|apply lor_ge_l]; mod_lia.
  - destruct t as [|c1 [|c2 t]]; try discriminate. norm_bits.
    destruct (_ && _) eqn:Hb; [|discriminate].
    intros H. inversion H; subst; clear H.
    apply andb_true_iff in Hb as [Hb H2]. apply contb_ge in H2.
    apply andb_true_iff in Hb as [H1 H1']. apply Z.leb_le in H1, H1'.
    split; [|repeat constructor; lia].
    pose proof (b2z_range c1).
    assert (Hbc : 0 <= Z.lor (b2z c1 mod 64 * 64) (b2z c2 mod 64))
      by (apply Z.lor_nonneg; mod_lia).
    destruct Hs as [[Hs ->] | Hs].
    + etransitivity; [|apply lor_ge_r; try assumption; mod_lia].
      etransitivity; [|apply lor_ge_l; mod_lia].
      mod_lia.
    + etransitivity; [|apply lor_ge_l; try assumption; mod_lia].
      mod_lia.
  - destruct t as [|c1 [|c2 [|c3 t]]]; try discriminate. norm_bits.
    destruct (_ && _) eqn:Hb; [|discriminate].
    intros H. inversion H; subst; clear H.
    apply andb_true_iff in Hb as [Hb H3]. apply contb_ge in H3.
    apply andb_true_iff in Hb as [Hb H2]. apply contb_ge in H2.
    apply andb_true_iff in Hb as [H1 H1']. apply Z.leb_le in H1, H1'.
    split; [|repeat constructor; lia].
    pose proof (b2z_range c1).
    assert (Hcd : 0 <= Z.lor (b2z c2 mod 64 * 64) (b2z c3 mod 64))
      by (apply Z.lor_nonneg; mod_lia).
    assert (Hbcd : 0 <= Z.lor (b2z c1 mod 64 * 4096)
                           (Z.lor (b2z c2 mod 64 * 64) (b2z c3 mod 64)))
      by (apply Z.lor_nonneg; split; [mod_lia | assumption]).
    destruct Hs as [[Hs ->] | Hs].
    + etransitivity; [|apply lor_ge_r; try assumption; mod_lia].
      etransitivity; [|apply lor_ge_l; try assumption; mod_lia].
      mod_lia.
    + etransitivity; [|apply lor_ge_l; try assumption; mod_lia].
      mod_lia.
Qed.

Lemma DecodeRune_nonascii (c : ascii) (t : gostring) (r : Z) (w : nat) :
  128 <= b2z c -> DecodeRuneInString (c :: t) = (r, w) ->
  128 <= r /\ Forall (fun b => 128 <= b2z b) (firstn (w - 1) t).
Proof.
  intros Hc. unfold DecodeRuneInString.
  destruct (decodeSeq (c :: t)) as [[r' w']|] eqn:E.
  - intros H. injection H as <- <-. eapply decodeSeq_nonascii; eauto.
  - intros H. injection H as <- <-. unfold RuneError. simpl.
    split; [lia | constructor].
Qed.

(** *** [range] over a string *)

Lemma find_none_forallb {A : Type} (p : A -> bool) (l : list A) :
  find (fun x => negb (p x)) l = None <-> forallb p l = true.
Proof.
  induction l as [|x l IH]; simpl; [tauto|].
  destruct (p x); simpl; [exact IH | split; discriminate].
Qed.

Lemma range_ascii_forallb (P : Z -> bool) (s : gostring) (i : nat) :
  (forall r, P r = true -> r < 128) ->
  forallb P (map snd (range_from i 0 s)) = forallb (fun c => P (b2z c)) s.
Proof.
  intros HP. revert i. induction s as [|c s IH]; intros i; [reflexivity|].
  cbn [range_from forallb].
  destruct (Z.lt_ge_cases (b2z c) 128) as [Hc|Hc].
  - rewrite (DecodeRune_ascii c s Hc). cbn [map snd forallb Nat.sub].
    now rewrite IH.
  - destruct (DecodeRuneInString (c :: s)) as [r w] eqn:E.
    destruct (DecodeRune_nonascii _ _ _ _ Hc E) as [Hr _].
    cbn [map snd forallb].
    assert (P r = false) as ->
      by (destruct (P r) eqn:H; [apply HP in H; lia | reflexivity]).
    assert (P (b2z c) = false) as ->
      by (destruct (P (b2z c)) eqn:H; [apply HP in H; lia | reflexivity]).
    reflexivity.
Qed.

Lemma runes_forallb (P : Z -> bool) (s : gostring) :
  (forall r, P r = true -> r < 128) ->
  forallb P (runes s) = forallb (fun c => P (b2z c)) s.
Proof. intros HP. now apply range_ascii_forallb. Qed.

Lemma range_ascii (s : gostring) (i : nat) :
  Forall (fun c => b2z c < 128) s ->
  map snd (range_from i 0 s) = map b2z s.
Proof.
  intros H. revert i. induction H as [|c s Hc Hs IH]; intros i;
    [reflexivity|].
  cbn [range_from]. rewrite (DecodeRune_ascii c s Hc).
  cbn [map snd Nat.sub]. now rewrite IH.
Qed.

Lemma runes_ascii (s : gostring) :
  Forall (fun c => b2z c < 128) s -> runes s = map b2z s.
Proof. apply range_ascii. Qed.

Lemma range_slashes (s : gostring) (i skip : nat) :
  Forall (fun b => 128 <= b2z b) (firstn skip s) ->
  filter isSlashAt (range_from i skip s) =
  map (fun k => (k, rn "/")) (byte_positions "/" i s).
Proof.
  revert i skip. induction s as [|c s IH]; intros i skip Hk; [reflexivity|].
  cbn [range_from byte_positions].
  rewrite byte_eqb_b2z. change (b2z "/") with 47.
  destruct skip as [|k].
  - destruct (DecodeRuneInString (c :: s)) as [r w] eqn:E.
    cbn [filter]. unfold isSlashAt at 1. cbn [snd]. change (rn "/") with 47.
    destruct (Z.lt_ge_cases (b2z c) 128) as [Hc|Hc].
    + rewrite (DecodeRune_ascii c s Hc) in E. injection E as <- <-.
      cbn [Nat.sub].
      rewrite (IH (S i) 0%nat) by constructor.
      destruct (Z.eqb_spec (b2z c) 47) as [H47|H47]; [|reflexivity].
      rewrite H47. reflexivity.
    + destruct (DecodeRune_nonascii _ _ _ _ Hc E) as [Hr Hf].
      rewrite (IH (S i) (w - 1)%nat Hf).
      replace (r =? 47) with false by (symmetry; apply Z.eqb_neq; lia).
      replace (b2z c =? 47) with false by (symmetry; apply Z.eqb_neq; lia).
      reflexivity.
  - cbn [firstn] in Hk. inversion Hk as [|? ? Hc Hk']; subst.
    rewrite (IH (S i) k Hk').
    replace (b2z c =? 47) with false by (symmetry; apply Z.eqb_neq; lia).
    reflexivity.
Qed.

Lemma checkPath_loop_filter (U : unicode_tables) (path : gostring)
  (fileName : bool) (irs : list (nat * Z)) (elemStart : nat) :
  checkPath_loop U path fileName irs elemStart =
  checkPath_loop U path fileName (filter isSlashAt irs) elemStart.
Proof.
  revert elemStart. induction irs as [|[i r] irs IH]; intros es;
    [reflexivity|].
  cbn [checkPath_loop filter]. unfold isSlashAt at 1. cbn [snd].
  destruct (r =? rn "/") eqn:Hr.
  - cbn [checkPath_loop]. rewrite Hr.
    destruct (checkElem U _ fileName); [reflexivity | apply IH].
  - apply IH.
Qed.

Lemma split_on_noslash (cur : gostring) :
  forallb notSlash cur = true -> split_on "/" cur = [cur].
Proof.
  induction cur as [|c cur IH]; [reflexivity|].
  simpl. unfold notSlash at 1. intros H.
  apply andb_true_iff in H as [Hc H]. apply negb_true_iff in Hc.
  rewrite Hc, (IH H). reflexivity.
Qed.

Lemma split_on_app_slash (cur t : gostring) :
  forallb notSlash cur = true ->
  split_on "/" (cur ++ "/"%char :: t) = cur :: split_on "/" t.
Proof.
  induction cur as [|c cur IH]; [reflexivity|].
  simpl. unfold notSlash at 1. intros H.
  apply andb_true_iff in H as [Hc H]. apply negb_true_iff in Hc.
  rewrite Hc, (IH H). reflexivity.
Qed.

Lemma checkPath_loop_split (U : unicode_tables) (fileName : bool)
  (rest pre cur : gostring) :
  forallb notSlash cur = true ->
  match checkPath_loop U (pre ++ cur ++ rest) fileName
          (map (fun k => (k, rn "/"))
             (byte_positions "/" (length pre + length cur)%nat rest))
          (length pre) with
  | inl err => Some err
  | inr elemStart => checkElem U (skipn elemStart (pre ++ cur ++ rest)) fileName
  end = None
  <-> Forall (fun e => checkElem U e fileName = None)
        (split_on "/" (cur ++ rest)).
Proof.
  revert pre cur. induction rest as [|c rest IH]; intros pre cur Hcur.
  - cbn [byte_positions map checkPath_loop]. rewrite !app_nil_r.
    rewrite skipn_app_exact, (split_on_noslash cur Hcur).
    split; [intros H; repeat constructor; exact H | now inversion 1].
  - cbn [byte_positions].
    destruct (byte_eqb c "/") eqn:Hc.
    + apply byte_eqb_eq in Hc. subst c.
      cbn [map checkPath_loop]. rewrite Z.eqb_refl.
      replace (length pre + length cur - length pre)%nat with (length cur)
        by lia.
      rewrite skipn_app_exact, firstn_app_exact.
      rewrite (split_on_app_slash cur rest Hcur).
      destruct (checkElem U cur fileName) as [err|] eqn:He.
      * split; [discriminate|]. inversion 1; congruence.
      * specialize (IH (pre ++ cur ++ ["/"%char]) [] eq_refl).
        rewrite !length_app in IH. simpl length in IH.
        rewrite Nat.add_0_r in IH.
        replace (S (length pre + length cur))
          with (length pre + (length cur + 1))%nat by lia.
        replace (length pre + length cur + 1)%nat
          with (length pre + (length cur + 1))%nat by lia.
        replace ((pre ++ cur ++ ["/"%char]) ++ [] ++ rest)
          with (pre ++ cur ++ "/"%char :: rest) in IH
          by (rewrite <- !app_assoc; reflexivity).
        rewrite IH. simpl app.
        split; [intros H; constructor; assumption | now inversion 1].
    + specialize (IH pre (cur ++ [c])).
      rewrite length_app in IH. simpl length in IH.
      replace (S (length pre + length cur))
        with (length pre + (length cur + 1))%nat by lia.
      replace (pre ++ (cur ++ [c]) ++ rest) with (pre ++ cur ++ c :: rest)
        in IH by (rewrite <- !app_assoc; reflexivity).
      replace ((cur ++ [c]) ++ rest) with (cur ++ c :: rest) in IH
        by (rewrite <- !app_assoc; reflexivity).
      apply IH. rewrite forallb_app, Hcur. simpl.
      unfold notSlash. now rewrite Hc.
Qed.

Lemma checkPath_elements (U : unicode_tables) (fileName : bool)
  (path : gostring) :
  match checkPath_loop U path fileName (range path) 0 with
  | inl err => Some err
  | inr elemStart => checkElem U (skipn elemStart path) fileName
  end = None
  <-> Forall (fun e => checkElem U e fileName = None) (split_on "/" path).
Proof.
  rewrite checkPath_loop_filter. unfold range.
  rewrite range_slashes by constructor.
  apply (checkPath_loop_split U fileName path [] []). reflexivity.
Qed.

(** *** Substrings, first and last bytes *)

Lemma Index_unfold (s sub : gostring) :
  Index s sub =
  if HasPrefix s sub then Some O
  else match s with
       | [] => None
       | _ :: s' => option_map S (Index s' sub)
       end.
Proof. destruct s; reflexivity. Qed.

Lemma Contains_iff (s sub : gostring) :
  Contains s sub = true <-> contains_sub s sub.
Proof.
  unfold Contains, contains_sub. split.
  - induction s as [|c s IH]; rewrite Index_unfold.
    + destruct (HasPrefix [] sub) eqn:H; [|discriminate].
      intros _. apply HasPrefix_inv in H as [t H]. now exists [], t.
    + destruct (HasPrefix (c :: s) sub) eqn:H.
      * intros _. apply HasPrefix_inv in H as [t H]. now exists [], t.
      * destruct (Index s sub); [|discriminate]. intros _.
        destruct (IH eq_refl) as (a & b & ->). now exists (c :: a), b.
  - intros (a & b & ->). induction a as [|c a IH].
    + rewrite Index_unfold. simpl app. now rewrite HasPrefix_app.
    + change ((c :: a) ++ sub ++ b) with (c :: (a ++ sub ++ b)).
      rewrite Index_unfold. destruct (HasPrefix _ sub); [reflexivity|].
      destruct (Index (a ++ sub ++ b) sub); [reflexivity | discriminate].
Qed.

Lemma Contains_false_iff (s sub : gostring) :
  Contains s sub = false <-> ~ contains_sub s sub.
Proof.
  rewrite <- Contains_iff. destruct (Contains s sub); split; congruence.
Qed.

Lemma last_byte_iff (s : gostring) (c : ascii) :
  s <> [] ->
  byte_eqb (byteAt s (length s - 1)) c = true <-> exists t, s = t ++ [c].
Proof.
  intros Hne. destruct (exists_last Hne) as (t & x & ->).
  rewrite length_app. simpl length.
  replace (length t + 1 - 1)%nat with (length t) by lia.
  rewrite byteAt_middle, byte_eqb_eq. split.
  - intros ->. now exists t.
  - intros [t' H]. apply app_inj_tail in H. tauto.
Qed.

Lemma first_byte_iff (s : gostring) (c : ascii) :
  s <> [] ->
  byte_eqb (byteAt s 0) c = true <-> exists t, s = c :: t.
Proof.
  intros Hne. destruct s as [|x s]; [contradiction|].
  unfold byteAt. simpl. rewrite byte_eqb_eq. split.
  - intros ->. now exists s.
  - intros [t H]. now injection H.
Qed.

Lemma filter_length_all {A : Type} (p : A -> bool) (l : list A) :
  length (filter p l) = length l <-> forallb p l = true.
Proof.
  induction l as [|x l IH]; simpl; [tauto|].
  pose proof (filter_length_le p l) as Hle.
  destruct (p x); simpl.
  - rewrite <- IH. split; [now injection 1 | now intros ->].
  - split; [lia | discriminate].
Qed.

Lemma Count1_all (e : gostring) (c : ascii) :
  Nat.eqb (Count1 e c) (length e) = true <-> Forall (eq c) e.
Proof.
  unfold Count1. rewrite Nat.eqb_eq, filter_length_all, forallb_forall,
    Forall_forall.
  split; intros H x Hx; specialize (H x Hx); now apply byte_eqb_eq.
Qed.

Lemma Index_byte_span (c : ascii) (v : gostring) :
  match Index v [c] with
  | Some k => (firstn k v, skipn k v)
  | None => (v, [])
  end = span (fun x => negb (byte_eqb x c)) v.
Proof.
  induction v as [|x v IH]; [reflexivity|].
  simpl. destruct (byte_eqb x c); simpl; [reflexivity|].
  rewrite <- IH.
  destruct (Index v [c]); reflexivity.
Qed.

Lemma existsb_byte_In (c : ascii) (l : gostring) :
  existsb (byte_eqb c) l = true <-> In c l.
Proof.
  rewrite existsb_exists. split.
  - intros (x & Hx & H). apply byte_eqb_eq in H. now subst.
  - intros H. exists c. split; [assumption | apply byte_eqb_refl].
Qed.

Lemma find_none_iff {A : Type} (p : A -> bool) (l : list A) :
  find p l = None <-> forall x, In x l -> p x = false.
Proof.
  induction l as [|x l IH]; simpl.
  - split; [contradiction | reflexivity].
  - destruct (p x) eqn:Hp.
    + split; [discriminate|]. intros H.
      specialize (H x (or_introl eq_refl)). congruence.
    + rewrite IH. split.
      * intros H y [<- | Hy]; auto.
      * intros H y Hy. apply H. now right.
Qed.

(** *** Path elements *)

Lemma pathOK_ascii (r : Z) : pathOK r = true -> r < 128.
Proof.
  unfold pathOK, RuneSelf. destruct (Z.ltb_spec r 128); [lia | discriminate].
Qed.

Lemma pathOK_import_chars (c : ascii) :
  pathOK (b2z c) = existsb (byte_eqb c) import_chars.
Proof.
  destruct c as [[] [] [] [] [] [] [] []]; vm_compute; reflexivity.
Qed.

Lemma pathOK_import_char (c : ascii) :
  pathOK (b2z c) = true <-> import_char c.
Proof. rewrite pathOK_import_chars. apply existsb_byte_In. Qed.

Lemma import_char_ascii (c : ascii) : import_char c -> b2z c < 128.
Proof. intros H. apply pathOK_ascii. now apply pathOK_import_char. Qed.

Lemma import_char_not_bang (c : ascii) : import_char c -> c <> "!"%char.
Proof.
  intros H ->. apply pathOK_import_char in H. discriminate H.
Qed.

Lemma pathOK_runes (e : gostring) :
  find (fun r => negb (pathOK r)) (runes e) = None <-> Forall import_char e.
Proof.
  rewrite find_none_forallb, (runes_forallb pathOK e pathOK_ascii).
  rewrite forallb_forall, Forall_forall.
  split; intros H x Hx; apply pathOK_import_char; auto.
Qed.

Lemma equalFold_step (U : unicode_tables) (a b : Z) (K : bool) :
  0 <= a < 128 -> 0 <= b < 128 ->
  (if b =? a then K
   else
     let '(sr, tr) := if b <? a then (b, a) else (a, b) in
     if tr <? RuneSelf then
       if isUpper sr && (tr =? sr + rn "a" - rn "A") then K else false
     else if SimpleFold_reaches U sr tr then K else false)
  = if lowerZ a =? lowerZ b then K else false.
Proof.
  intros Ha Hb. unfold lowerZ, isUpper, RuneSelf.
  change (rn "a") with 97. change (rn "A") with 65. change (rn "Z") with 90.
  destruct (Z.eqb_spec b a) as [->|Hne].
  - now rewrite Z.eqb_refl.
  - destruct (Z.ltb_spec b a);
      repeat match goal with
             | |- _ => progress cbn [andb]
             | |- context [?x <? ?y] => destruct (Z.ltb_spec x y); try lia
             | |- context [?x <=? ?y] => destruct (Z.leb_spec x y); try lia
             | |- context [?x =? ?y] => destruct (Z.eqb_spec x y); try lia
             end;
      reflexivity.
Qed.

Lemma equalFoldRunes_ascii (U : unicode_tables) (s t : gostring) :
  Forall (fun c => b2z c < 128) s -> Forall (fun c => b2z c < 128) t ->
  equalFoldRunes U (map b2z s) (map b2z t) = true <-> fold_eq s t.
Proof.
  unfold fold_eq. intros Hs. revert t.
  induction Hs as [|a s Ha Hs IH]; intros t Ht.
  - destruct t; simpl; split; congruence.
  - destruct Ht as [|b t Hb Ht]; [simpl; split; congruence|].
    cbn [map equalFoldRunes].
    pose proof (b2z_range a). pose proof (b2z_range b).
    rewrite (equalFold_step U (b2z a) (b2z b)) by lia.
    destruct (Z.eqb_spec (lowerZ (b2z a)) (lowerZ (b2z b))) as [E|E].
    + rewrite (IH t Ht), E. split; [congruence | now injection 1].
    + split; [discriminate | intros Heq; injection Heq; contradiction].
Qed.

Lemma EqualFold_ascii (U : unicode_tables) (s t : gostring) :
  Forall (fun c => b2z c < 128) s -> Forall (fun c => b2z c < 128) t ->
  EqualFold U s t = true <-> fold_eq s t.
Proof.
  intros Hs Ht. unfold EqualFold.
  rewrite (runes_ascii s Hs), (runes_ascii t Ht).
  now apply equalFoldRunes_ascii.
Qed.

Lemma badWindowsNames_reserved : badWindowsNames = reserved_names.
Proof. reflexivity. Qed.

Lemma badWindowsNames_ascii (bad : gostring) :
  In bad badWindowsNames -> Forall (fun c => b2z c < 128) bad.
Proof.
  intros H.
  assert (Hall : forallb (forallb (fun c => b2z c <? 128)) badWindowsNames
                 = true) by reflexivity.
  rewrite forallb_forall in Hall. specialize (Hall bad H).
  rewrite forallb_forall in Hall. apply Forall_forall.
  intros c Hc. apply Z.ltb_lt. now apply Hall.
Qed.

Lemma span_prefix_Forall (P : ascii -> Prop) (p : ascii -> bool)
  (e : gostring) :
  Forall P e -> Forall P (fst (span p e)).
Proof.
  intros H. destruct (span p e) as [d r] eqn:E.
  destruct (span_spec _ _ _ _ E) as (-> & _ & _).
  apply Forall_app in H. tauto.
Qed.

Lemma checkElem_import (U : unicode_tables) (e : gostring) :
  checkElem U e false = None <-> elem_valid e.
Proof.
  unfold checkElem, elem_valid.
  destruct (streq e []) eqn:Hnil.
  { apply streq_eq in Hnil. split; [discriminate | tauto]. }
  apply streq_neq in Hnil.
  destruct (Nat.eqb (Count1 e ".") (length e)) eqn:Hcnt.
  { apply Count1_all in Hcnt. split; [discriminate | tauto]. }
  assert (Hdots : ~ Forall (eq "."%char) e).
  { intros H. apply Count1_all in H. congruence. }
  cbn [negb]. rewrite andb_true_r.
  destruct (byte_eqb (byteAt e 0) ".") eqn:Hfst.
  { apply (first_byte_iff e _ Hnil) in Hfst as [t Ht].
    split; [discriminate|]. intros (_ & _ & H & _). now apply H in Ht. }
  assert (Hlead : forall t, e <> "."%char :: t).
  { intros t Ht.
    assert (byte_eqb (byteAt e 0) "." = true)
      by (apply (first_byte_iff e _ Hnil); eauto).
    congruence. }
  destruct (byte_eqb (byteAt e (length e - 1)) ".") eqn:Hlst.
  { apply (last_byte_iff e _ Hnil) in Hlst as [t Ht].
    split; [discriminate|]. intros (_ & _ & _ & H & _). now apply H in Ht. }
  assert (Htrail : forall t, e <> t ++ ["."%char]).
  { intros t Ht.
    assert (byte_eqb (byteAt e (length e - 1)) "." = true)
      by (apply (last_byte_iff e _ Hnil); eauto).
    congruence. }
  destruct (find (fun r => negb (pathOK r)) (runes e)) as [r|] eqn:Hch.
  { split; [discriminate|]. intros (_ & _ & _ & _ & H & _).
    apply pathOK_runes in H. congruence. }
  apply pathOK_runes in Hch.
  change (str ".") with ["."%char].
  pose proof (Index_byte_span "." e) as Hsp.
  assert (Hshort : match Index e ["."%char] with
                   | Some i => firstn i e
                   | None => e
                   end = before_first_dot e).
  { unfold before_first_dot, notDot. rewrite <- Hsp.
    destruct (Index e ["."%char]); reflexivity. }
  rewrite Hshort.
  assert (Hascii : Forall (fun c => b2z c < 128) (before_first_dot e)).
  { apply span_prefix_Forall. eapply Forall_impl; [|exact Hch].
    apply import_char_ascii. }
  assert (Hbad : find (fun bad => EqualFold U bad (before_first_dot e))
                   badWindowsNames = None
                 <-> forall bad, In bad reserved_names ->
                                 ~ fold_eq bad (before_first_dot e)).
  { rewrite find_none_iff, <- badWindowsNames_reserved.
    split; intros H bad Hin; specialize (H bad Hin).
    - intros Hf.
      apply (EqualFold_ascii U bad _ (badWindowsNames_ascii bad Hin) Hascii)
        in Hf.
      congruence.
    - destruct (EqualFold U bad (before_first_dot e)) eqn:E;
        [|reflexivity].
      apply (EqualFold_ascii U bad _ (badWindowsNames_ascii bad Hin) Hascii)
        in E.
      contradiction. }
  destruct (find _ badWindowsNames) eqn:Hw.
  - split; [discriminate|]. intros (_ & _ & _ & _ & _ & H).
    apply Hbad in H. discriminate H.
  - split; [|reflexivity]. intros _.
    repeat split; try assumption. now apply Hbad.
Qed.

(** *** Import paths *)

Lemma checkPath_import (U : unicode_tables) (path : gostring) :
  checkPath U path false = None <-> import_path_valid path.
Proof.
  unfold checkPath, import_path_valid.
  destruct (ValidString path); cbn [negb];
    [|split; [discriminate | intros [H _]; discriminate H]].
  destruct (streq path []) eqn:Hnil.
  { apply streq_eq in Hnil. split; [discriminate | tauto]. }
  apply streq_neq in Hnil.
  destruct (Contains path (str "..")) eqn:Hdd.
  { apply Contains_iff in Hdd. split; [discriminate | tauto]. }
  apply Contains_false_iff in Hdd.
  destruct (Contains path (str "//")) eqn:Hss.
  { apply Contains_iff in Hss. split; [discriminate | tauto]. }
  apply Contains_false_iff in Hss.
  destruct (byte_eqb (byteAt path (length path - 1)) "/") eqn:Hlst.
  { apply (last_byte_iff path _ Hnil) in Hlst as [t Ht].
    split; [discriminate|]. intros (_ & _ & _ & _ & H & _).
    now apply H in Ht. }
  assert (Htrail : forall t, path <> t ++ ["/"%char]).
  { intros t Ht.
    assert (byte_eqb (byteAt path (length path - 1)) "/" = true)
      by (apply (last_byte_iff path _ Hnil); eauto).
    congruence. }
  rewrite checkPath_elements.
  assert (Hel : Forall (fun e => checkElem U e false = None)
                  (split_on "/" path)
                <-> Forall elem_valid (split_on "/" path)).
  { rewrite !Forall_forall.
    split; intros H e He; apply (checkElem_import U e); auto. }
  rewrite Hel. tauto.
Qed.

(** C6: [CheckImportPath] accepts a path exactly when it is valid UTF-8,
    non-empty, without a [..] or [//] substring, not ending in ['/'], and
    each of its slash-separated elements is non-empty, not made of dots
    only, neither starts nor ends with a dot, consists of ASCII letters,
    digits and [+ - . _ ~], and has, before its first dot, no reserved
    device name up to the case of letters. *)
Theorem CheckImportPath_spec (U : unicode_tables) (path : gostring) :
  CheckImportPath U path = None <-> import_path_valid path.
Proof.
  rewrite <- (checkPath_import U path). unfold CheckImportPath.
  destruct (checkPath U path false); split; intros H;
    first [discriminate H | reflexivity].
Qed.

(** *** Escaping and unescaping *)

Lemma split_on_In (sep c : ascii) (s : gostring) :
  In c s -> c = sep \/ exists e, In e (split_on sep s) /\ In c e.
Proof.
  induction s as [|x s IH]; [contradiction|].
  intros [<- | Hin]; simpl.
  - destruct (byte_eqb x sep) eqn:E.
    + left. now apply byte_eqb_eq.
    + right. destruct (split_on sep s) as [|e es].
      * exists [x]. simpl. auto.
      * exists (x :: e). simpl. auto.
  - destruct (IH Hin) as [-> | (e & He & Hc)]; [now left|]. right.
    destruct (byte_eqb x sep).
    + exists e. simpl. auto.
    + destruct (split_on sep s) as [|e' es]; [contradiction|].
      destruct He as [<- | He].
      * exists (x :: e'). simpl. auto.
      * exists e. simpl. auto.
Qed.

Lemma CheckPath_plain (U : unicode_tables) (p : gostring) :
  CheckPath U p = None -> Forall plain_byte p.
Proof.
  intros H. assert (Hc : checkPath U p false = None).
  { unfold CheckPath in H. destruct (checkPath U p false);
      [discriminate | reflexivity]. }
  apply checkPath_import in Hc. destruct Hc as (_ & _ & _ & _ & _ & Hel).
  apply Forall_forall. intros c Hin.
  destruct (split_on_In "/" c p Hin) as [-> | (e & He & Hce)].
  - split; [reflexivity | discriminate].
  - rewrite Forall_forall in Hel. destruct (Hel e He) as (_ & _ & _ & _ & Hch & _).
    rewrite Forall_forall in Hch. specialize (Hch c Hce).
    split; [now apply import_char_ascii | now apply import_char_not_bang].
Qed.

Lemma plain_is_ascii (s : gostring) : Forall plain_byte s -> is_ascii s.
Proof. apply Forall_impl. now intros c [H _]. Qed.

Lemma escapeScan_plain (s : gostring) (h : bool) :
  Forall plain_byte s ->
  escapeScan (map b2z s) h =
  Some (h || existsb (fun c => isUpper (b2z c)) s).
Proof.
  intros H. revert h. induction H as [|c s [Hc Hb] Hs IH]; intros h.
  - simpl. now rewrite orb_false_r.
  - cbn [map escapeScan existsb]. unfold RuneSelf.
    replace (b2z c =? rn "!") with false
      by (symmetry; apply Z.eqb_neq; intros E; apply Hb; now apply b2z_inj).
    replace (128 <=? b2z c) with false by (symmetry; apply Z.leb_gt; lia).
    cbn [orb]. rewrite IH.
    destruct (isUpper (b2z c)), h; reflexivity.
Qed.

Lemma escapeFill_plain (s buf : gostring) :
  escapeFill (map b2z s) buf = buf ++ escaped_form s.
Proof.
  revert buf. induction s as [|c s IH]; intros buf.
  - simpl. now rewrite app_nil_r.
  - cbn [map escapeFill]. unfold escaped_form. cbn [flat_map].
    unfold escape_byte at 1. unfold isUpper.
    change (rn "A") with 65. change (rn "Z") with 90.
    change (rn "a") with 97.
    destruct ((65 <=? b2z c) && (b2z c <=? 90)).
    + rewrite IH. unfold escaped_form. rewrite <- app_assoc.
      replace (b2z c + 97 - 65) with (b2z c + 32) by lia. reflexivity.
    + rewrite IH, z2b_b2z. unfold escaped_form. now rewrite <- app_assoc.
Qed.

Lemma escaped_form_no_upper (s : gostring) :
  existsb (fun c => isUpper (b2z c)) s = false -> escaped_form s = s.
Proof.
  induction s as [|c s IH]; [reflexivity|].
  cbn [existsb]. intros H. apply orb_false_iff in H as [Hc Hs].
  unfold escaped_form. cbn [flat_map]. unfold escape_byte at 1.
  unfold isUpper in Hc. change (rn "A") with 65 in Hc.
  change (rn "Z") with 90 in Hc. rewrite Hc. simpl.
  f_equal. now apply IH.
Qed.

Lemma escapeString_plain (s : gostring) :
  Forall plain_byte s -> escapeString s = (escaped_form s, None).
Proof.
  intros H. unfold escapeString.
  rewrite (runes_ascii s (plain_is_ascii s H)).
  rewrite (escapeScan_plain s false H). cbn [orb].
  destruct (existsb _ s) eqn:E; cbn [negb].
  - now rewrite escapeFill_plain.
  - now rewrite escaped_form_no_upper.
Qed.

Lemma escapeScan_ascii (rs : list Z) (h h' : bool) :
  escapeScan rs h = Some h' ->
  forallb (fun r => (r <? 128) && negb (r =? rn "!")) rs = true.
Proof.
  revert h. induction rs as [|r rs IH]; intros h; [reflexivity|].
  cbn [escapeScan forallb]. unfold RuneSelf.
  destruct (r =? rn "!"); [discriminate|].
  destruct (Z.leb_spec 128 r) as [Hr|Hr]; [discriminate|]. cbn [orb].
  intros Hs. apply IH in Hs. rewrite Hs.
  now replace (r <? 128) with true by (symmetry; apply Z.ltb_lt; lia).
Qed.

Lemma escapeString_ok_plain (s e : gostring) :
  escapeString s = (e, None) -> Forall plain_byte s.
Proof.
  unfold escapeString.
  destruct (escapeScan (runes s) false) as [h|] eqn:E; [|discriminate].
  intros _. apply escapeScan_ascii in E.
  rewrite runes_forallb in E.
  - rewrite forallb_forall in E. apply Forall_forall. intros c Hc.
    specialize (E c Hc). apply andb_true_iff in E as [E1 E2].
    apply Z.ltb_lt in E1. apply negb_true_iff, Z.eqb_neq in E2.
    split; [assumption | now intros ->].
  - intros r Hr. apply andb_true_iff in Hr as [Hr _]. now apply Z.ltb_lt.
Qed.

Lemma escape_byte_ascii (c : ascii) :
  b2z c < 128 -> Forall (fun x => b2z x < 128) (escape_byte c).
Proof.
  intros Hc. unfold escape_byte.
  destruct (Z.leb_spec 65 (b2z c)), (Z.leb_spec (b2z c) 90); cbn [andb];
    repeat constructor; try assumption.
  rewrite b2z_z2b; lia.
Qed.

Lemma escaped_form_ascii (s : gostring) :
  is_ascii s -> is_ascii (escaped_form s).
Proof.
  unfold is_ascii, escaped_form. induction 1 as [|c s Hc Hs IH];
    [constructor|].
  cbn [flat_map]. apply Forall_app. split; [now apply escape_byte_ascii|].
  exact IH.
Qed.

Lemma unescapeLoop_escaped (s buf : gostring) :
  Forall plain_byte s ->
  unescapeLoop (map b2z (escaped_form s)) buf false = Some (buf ++ s, false).
Proof.
  intros H. revert buf. induction H as [|c s [Hc Hb] Hs IH]; intros buf.
  - simpl. now rewrite app_nil_r.
  - unfold escaped_form. cbn [flat_map]. fold (escaped_form s).
    rewrite map_app. unfold escape_byte.
    pose proof (b2z_range c) as Hr.
    assert (Hne : b2z c <> 33).
    { intros E. apply Hb. apply b2z_inj. exact E. }
    destruct (Z.leb_spec 65 (b2z c)), (Z.leb_spec (b2z c) 90); cbn [andb].
    + cbn [map app unescapeLoop]. unfold RuneSelf, isUpper.
      change (b2z "!") with 33. change (rn "!") with 33.
      change (rn "a") with 97. change (rn "z") with 122.
      change (rn "A") with 65.
      rewrite b2z_z2b by lia.
      change (128 <=? 33) with false. cbn iota. change (33 =? 33) with true.
      cbn iota.
      replace (128 <=? b2z c + 32) with false
        by (symmetry; apply Z.leb_gt; lia).
      replace (b2z c + 32 <? 97) with false
        by (symmetry; apply Z.ltb_ge; lia).
      replace (122 <? b2z c + 32) with false
        by (symmetry; apply Z.ltb_ge; lia).
      cbn [orb]. cbn iota.
      replace (b2z c + 32 + 65 - 97) with (b2z c) by lia.
      rewrite z2b_b2z, IH, <- app_assoc. reflexivity.
    + cbn [map app unescapeLoop]. unfold RuneSelf, isUpper.
      change (rn "!") with 33. change (rn "A") with 65.
      change (rn "Z") with 90.
      replace (128 <=? b2z c) with false by (symmetry; apply Z.leb_gt; lia).
      replace (b2z c =? 33) with false by (symmetry; now apply Z.eqb_neq).
      replace (b2z c <=? 90) with false by (symmetry; apply Z.leb_gt; lia).
      rewrite andb_false_r, z2b_b2z, IH, <- app_assoc. reflexivity.
    + cbn [map app unescapeLoop]. unfold RuneSelf, isUpper.
      change (rn "!") with 33. change (rn "A") with 65.
      change (rn "Z") with 90.
      replace (128 <=? b2z c) with false by (symmetry; apply Z.leb_gt; lia).
      replace (b2z c =? 33) with false by (symmetry; now apply Z.eqb_neq).
      replace (65 <=? b2z c) with false by (symmetry; apply Z.leb_gt; lia).
      cbn [andb]. rewrite z2b_b2z, IH, <- app_assoc. reflexivity.
    + lia.
Qed.

Lemma unescapeString_escaped (s : gostring) :
  Forall plain_byte s -> unescapeString (escaped_form s) = (s, true).
Proof.
  intros H. unfold unescapeString.
  rewrite (runes_ascii _ (escaped_form_ascii s (plain_is_ascii s H))).
  now rewrite (unescapeLoop_escaped s [] H).
Qed.

Lemma unescapeLoop_ascii (rs : list Z) (buf out : gostring) (bang b : bool) :
  unescapeLoop rs buf bang = Some (out, b) ->
  forallb (fun r => r <? 128) rs = true.
Proof.
  revert buf bang. induction rs as [|r rs IH]; intros buf bang;
    [reflexivity|].
  cbn [unescapeLoop forallb]. unfold RuneSelf.
  destruct (Z.leb_spec 128 r) as [Hr|Hr]; [discriminate|].
  replace (r <? 128) with true by (symmetry; apply Z.ltb_lt; lia).
  cbn [andb].
  destruct bang.
  - destruct (_ || _); [discriminate | apply IH].
  - destruct (r =? rn "!"); [apply IH|].
    destruct (isUpper r); [discriminate | apply IH].
Qed.

Lemma unescapeLoop_inv (e buf out : gostring) (bang : bool) :
  unescapeLoop (map b2z e) buf bang = Some (out, false) ->
  exists v, out = buf ++ v /\ Forall plain_byte v
            /\ (if bang then "!"%char :: e else e) = escaped_form v.
Proof.
  revert buf bang. induction e as [|c e IH]; intros buf bang.
  - cbn [map unescapeLoop]. intros H. inversion H; subst.
    exists []. rewrite app_nil_r. repeat split. constructor.
  - cbn [map unescapeLoop]. unfold RuneSelf, isUpper.
    change (rn "!") with 33. change (rn "a") with 97.
    change (rn "z") with 122. change (rn "A") with 65.
    change (rn "Z") with 90.
    pose proof (b2z_range c) as Hr.
    destruct (Z.leb_spec 128 (b2z c)) as [Hc|Hc]; [discriminate|].
    destruct bang.
    + destruct (Z.ltb_spec (b2z c) 97) as [Ha|Ha]; [discriminate|].
      destruct (Z.ltb_spec 122 (b2z c)) as [Hz|Hz]; [discriminate|].
      cbn [orb]. intros H.
      destruct (IH _ _ H) as (v & -> & Hv & He).
      exists (z2b (b2z c + 65 - 97) :: v).
      rewrite <- app_assoc. split; [reflexivity|].
      assert (Hb : b2z (z2b (b2z c + 65 - 97)) = b2z c - 32)
        by (rewrite b2z_z2b; lia).
      split.
      * constructor; [|exact Hv]. split; [lia|].
        intros E. rewrite E in Hb. change (b2z "!") with 33 in Hb. lia.
      * unfold escaped_form. cbn [flat_map]. fold (escaped_form v).
        unfold escape_byte. rewrite Hb.
        replace (65 <=? b2z c - 32) with true
          by (symmetry; apply Z.leb_le; lia).
        replace (b2z c - 32 <=? 90) with true
          by (symmetry; apply Z.leb_le; lia).
        cbn [andb app].
        replace (b2z c - 32 + 32) with (b2z c) by lia.
        now rewrite z2b_b2z, <- He.
    + destruct (Z.eqb_spec (b2z c) 33) as [E|E].
      * intros H. destruct (IH _ _ H) as (v & -> & Hv & He).
        exists v. repeat split; try assumption.
        rewrite <- He. f_equal. apply b2z_inj. exact E.
      * destruct ((65 <=? b2z c) && (b2z c <=? 90)) eqn:Hu; [discriminate|].
        intros H. destruct (IH _ _ H) as (v & -> & Hv & He).
        exists (c :: v). rewrite z2b_b2z, <- app_assoc.
        split; [reflexivity|]. split.
        -- constructor; [|exact Hv]. split; [lia|].
           intros ->. now apply E.
        -- unfold escaped_form. cbn [flat_map]. fold (escaped_form v).
           unfold escape_byte. rewrite Hu. cbn [app]. now rewrite <- He.
Qed.

Lemma unescapeString_inv (e v : gostring) :
  unescapeString e = (v, true) ->
  Forall plain_byte v /\ e = escaped_form v.
Proof.
  unfold unescapeString.
  destruct (unescapeLoop (runes e) [] false) as [[buf bang]|] eqn:E;
    [|discriminate].
  destruct bang; [discriminate|]. intros H. injection H as ->.
  pose proof (unescapeLoop_ascii _ _ _ _ _ E) as Ha.
  rewrite runes_forallb in Ha by (intros r Hr; now apply Z.ltb_lt).
  assert (Hascii : is_ascii e).
  { apply Forall_forall. intros c Hc. rewrite forallb_forall in Ha.
    apply Z.ltb_lt. now apply Ha. }
  rewrite (runes_ascii e Hascii) in E.
  destruct (unescapeLoop_inv _ _ _ _ E) as (v' & Hv & Hp & He).
  simpl in Hv. subst v'. auto.
Qed.

Lemma no_bang_iff (v : gostring) :
  Contains v (str "!") = false <-> Forall (fun c => c <> "!"%char) v.
Proof.
  rewrite Contains_false_iff, Forall_forall. unfold contains_sub. split.
  - intros H c Hin ->. apply H. apply in_split in Hin as (a & b & ->).
    now exists a, b.
  - intros H (a & b & ->). apply (H "!"%char); [|reflexivity].
    apply in_or_app. right. now left.
Qed.

Lemma plain_byte_iff (v : gostring) :
  Forall plain_byte v <-> is_ascii v /\ Contains v (str "!") = false.
Proof.
  rewrite no_bang_iff. unfold is_ascii, plain_byte.
  rewrite !Forall_forall. split.
  - intros H. split; intros c Hc; now apply H.
  - intros [H1 H2] c Hc. split; auto.
Qed.

Lemma EscapePath_ok (U : unicode_tables) (p : gostring) :
  CheckPath U p = None -> EscapePath U p = (escaped_form p, None).
Proof.
  intros H. unfold EscapePath. rewrite H.
  apply escapeString_plain. now apply (CheckPath_plain U).
Qed.

Lemma UnescapePath_escaped (U : unicode_tables) (p : gostring) :
  CheckPath U p = None -> UnescapePath U (escaped_form p) = (p, None).
Proof.
  intros H. unfold UnescapePath.
  rewrite (unescapeString_escaped p (CheckPath_plain U p H)).
  cbn [negb]. now rewrite H.
Qed.

Lemma EscapeVersion_ok (U : unicode_tables) (v : gostring) :
  checkElem U v true = None -> Contains v (str "!") = false -> is_ascii v ->
  EscapeVersion U v = (escaped_form v, None).
Proof.
  intros Hc Hb Ha. unfold EscapeVersion. rewrite Hc, Hb. cbn [orb].
  apply escapeString_plain. now apply plain_byte_iff.
Qed.

Lemma UnescapeVersion_escaped (U : unicode_tables) (v : gostring) :
  checkElem U v true = None -> Contains v (str "!") = false -> is_ascii v ->
  UnescapeVersion U (escaped_form v) = (v, None).
Proof.
  intros Hc Hb Ha. unfold UnescapeVersion.
  rewrite (unescapeString_escaped v) by now apply plain_byte_iff.
  cbn [negb]. now rewrite Hc.
Qed.

Lemma UnescapePath_inv (U : unicode_tables) (e p : gostring) :
  UnescapePath U e = (p, None) ->
  CheckPath U p = None /\ e = escaped_form p.
Proof.
  unfold UnescapePath.
  destruct (unescapeString e) as [path ok] eqn:E.
  destruct ok; cbn [negb]; [|discriminate].
  destruct (CheckPath U path) eqn:Hc; [discriminate|].
  intros H. injection H as <-.
  split; [exact Hc|]. now apply unescapeString_inv.
Qed.

Lemma UnescapeVersion_inv (U : unicode_tables) (e v : gostring) :
  UnescapeVersion U e = (v, None) ->
  checkElem U v true = None /\ Forall plain_byte v /\ e = escaped_form v.
Proof.
  unfold UnescapeVersion.
  destruct (unescapeString e) as [v' ok] eqn:E.
  destruct ok; cbn [negb]; [|discriminate].
  destruct (checkElem U v' true) eqn:Hc; [discriminate|].
  intros H. injection H as <-.
  split; [exact Hc|]. now apply unescapeString_inv.
Qed.

Lemma EscapeVersion_not_ascii (U : unicode_tables) (v : gostring) :
  checkElem U v true = None -> Contains v (str "!") = false ->
  ~ is_ascii v ->
  EscapeVersion U v
  = ([], Some (Errorf "internal error: inconsistency in EscapePath" [])).
Proof.
  intros Hc Hb Ha. unfold EscapeVersion. rewrite Hc, Hb. cbn [orb].
  destruct (escapeString v) as [e [err|]] eqn:E.
  - unfold escapeString in E.
    destruct (escapeScan (runes v) false) as [h|]; [|now symmetry].
    destruct (negb h); discriminate E.
  - exfalso. apply Ha. apply plain_is_ascii.
    now apply (escapeString_ok_plain v e).
Qed.

(** C1 (as the code has it): escaping round-trips.  A path accepted by
    [CheckPath], and an ASCII version accepted by the file-name element
    rule without ['!'], escapes to its escaped form, and unescaping that
    returns the input; whenever unescaping accepts an escaped string,
    escaping its result returns that string. *)
Theorem escape_round_trip (U : unicode_tables) :
  (forall p, CheckPath U p = None ->
     EscapePath U p = (escaped_form p, None)
     /\ UnescapePath U (escaped_form p) = (p, None))
  /\ (forall v, checkElem U v true = None -> Contains v (str "!") = false ->
        is_ascii v ->
        EscapeVersion U v = (escaped_form v, None)
        /\ UnescapeVersion U (escaped_form v) = (v, None))
  /\ (forall e p, UnescapePath U e = (p, None) ->
        EscapePath U p = (e, None))
  /\ (forall e v, UnescapeVersion U e = (v, None) ->
        EscapeVersion U v = (e, None)).
Proof.
  repeat split.
  - now apply EscapePath_ok.
  - now apply UnescapePath_escaped.
  - now apply EscapeVersion_ok.
  - now apply UnescapeVersion_escaped.
  - intros e p H. apply UnescapePath_inv in H as [Hc ->].
    now apply EscapePath_ok.
  - intros e v H. apply UnescapeVersion_inv in H as (Hc & Hp & ->).
    apply plain_byte_iff in Hp as [Ha Hb]. now apply EscapeVersion_ok.
Qed.

Lemma escape_round_trip_witness :
  (forall U, CheckPath U (str "github.com/Azure/azure-sdk-for-go") = None)
  /\ (forall U,
        EscapePath U (str "github.com/Azure/azure-sdk-for-go")
        = (str "github.com/!azure/azure-sdk-for-go", None)
        /\ UnescapePath U (str "github.com/!azure/azure-sdk-for-go")
           = (str "github.com/Azure/azure-sdk-for-go", None)).
Proof.
  split; intros U; [reflexivity|].
  apply (proj1 (escape_round_trip U)
           (str "github.com/Azure/azure-sdk-for-go")).
  reflexivity.
Defined.

(** C1, counterexample: the version [version_e_acute] passes the file-name
    element rule and has no ['!'], but [EscapeVersion] rejects it, so there
    is nothing to unescape. *)
Lemma EscapeVersion_rejects_e_acute :
  (forall U, checkElem U version_e_acute true = None)
  /\ Contains version_e_acute (str "!") = false
  /\ (forall U, EscapeVersion U version_e_acute
                = ([], Some (Errorf
                               "internal error: inconsistency in EscapePath"
                               []))).
Proof. repeat split. Qed.

Lemma escaped_form_inj (a b : gostring) :
  Forall plain_byte a -> Forall plain_byte b ->
  escaped_form a = escaped_form b -> a = b.
Proof.
  intros Ha Hb E.
  pose proof (unescapeString_escaped a Ha) as Hua.
  pose proof (unescapeString_escaped b Hb) as Hub.
  rewrite E in Hua. congruence.
Qed.

(** C2 (as the code has it): escaping is injective.  Two distinct paths
    accepted by [CheckPath] have distinct escaped forms; two distinct
    versions accepted by the file-name element rule without ['!'], at least
    one of them ASCII, have distinct results of [EscapeVersion]. *)
Theorem escape_injective (U : unicode_tables) :
  (forall a b, CheckPath U a = None -> CheckPath U b = None -> a <> b ->
     fst (EscapePath U a) <> fst (EscapePath U b))
  /\ (forall a b,
        checkElem U a true = None -> Contains a (str "!") = false ->
        checkElem U b true = None -> Contains b (str "!") = false ->
        is_ascii a \/ is_ascii b -> a <> b ->
        EscapeVersion U a <> EscapeVersion U b).
Proof.
  split.
  - intros a b Ha Hb Hne.
    rewrite (EscapePath_ok U a Ha), (EscapePath_ok U b Hb). cbn [fst].
    intros E. apply Hne.
    apply escaped_form_inj; try assumption; now apply (CheckPath_plain U).
  - intros a b Hca Hba Hcb Hbb Hascii Hne E.
    assert (Hboth : is_ascii a /\ is_ascii b).
    { assert (Hdec : forall v, checkElem U v true = None ->
                               Contains v (str "!") = false ->
                               snd (EscapeVersion U v) = None -> is_ascii v).
      { intros v Hc Hb Hs. unfold EscapeVersion in Hs.
        rewrite Hc, Hb in Hs. cbn [orb] in Hs.
        destruct (escapeString v) as [e o] eqn:Ee. simpl in Hs. subst o.
        apply plain_is_ascii. now apply (escapeString_ok_plain v e). }
      destruct Hascii as [H | H]; split; try assumption; apply Hdec;
        try assumption.
      - rewrite <- E, (EscapeVersion_ok U a Hca Hba H). reflexivity.
      - rewrite E, (EscapeVersion_ok U b Hcb Hbb H). reflexivity. }
    destruct Hboth as [Haa Hab].
    rewrite (EscapeVersion_ok U a Hca Hba Haa),
      (EscapeVersion_ok U b Hcb Hbb Hab) in E.
    injection E as E. apply Hne.
    apply escaped_form_inj; try assumption; now apply plain_byte_iff.
Qed.

Lemma escape_injective_witness :
  (forall U, CheckPath U (str "rsc.io/QUOTE") = None
             /\ CheckPath U (str "rsc.io/quote") = None)
  /\ str "rsc.io/QUOTE" <> str "rsc.io/quote"
  /\ (forall U, fst (EscapePath U (str "rsc.io/QUOTE"))
                <> fst (EscapePath U (str "rsc.io/quote"))).
Proof.
  split; [intros U; split; reflexivity|].
  split; [discriminate|]. intros U.
  apply (proj1 (escape_injective U)); [reflexivity | reflexivity
                                       | discriminate].
Defined.

(** C2, counterexample: the distinct versions [version_e_acute] and
    [version_e_grave] both pass the file-name element rule and have no
    ['!'], and [EscapeVersion] returns the same result for both. *)
Lemma EscapeVersion_collides :
  version_e_acute <> version_e_grave
  /\ (forall U, checkElem U version_e_acute true = None
                /\ checkElem U version_e_grave true = None)
  /\ Contains version_e_acute (str "!") = false
  /\ Contains version_e_grave (str "!") = false
  /\ (forall U, EscapeVersion U version_e_acute
                = EscapeVersion U version_e_grave).
Proof. repeat split; discriminate. Qed.

(** *** Examples of the specification *)

Lemma SplitPathVersion_examples :
  SplitPathVersion (str "example.com/pkg/v2")
  = (str "example.com/pkg", str "/v2", true)
  /\ SplitPathVersion (str "example.com/pkg/v1")
     = (str "example.com/pkg/v1", [], false)
  /\ SplitPathVersion (str "example.com/pkg/v1.2")
     = (str "example.com/pkg/v1.2", [], false)
  /\ SplitPathVersion (str "example.com/pkg")
     = (str "example.com/pkg", [], true)
  /\ SplitPathVersion (str "gopkg.in/yaml.v2")
     = (str "gopkg.in/yaml", str ".v2", true)
  /\ SplitPathVersion (str "gopkg.in/yaml.v0")
     = (str "gopkg.in/yaml", str ".v0", true)
  /\ SplitPathVersion (str "gopkg.in/yaml.v0-unstable")
     = (str "gopkg.in/yaml.v0-unstable", [], false)
  /\ SplitPathVersion (str "gopkg.in/yaml")
     = (str "gopkg.in/yaml", [], false).
Proof. repeat split. Qed.

(** On the legacy dialect the digit run may be empty before [-unstable]. *)
Lemma SplitPathVersion_unstable_without_digits :
  SplitPathVersion (str "gopkg.in/yaml.v-unstable")
  = (str "gopkg.in/yaml", str ".v-unstable", true).
Proof. reflexivity. Qed.

Lemma escape_examples (U : unicode_tables) :
  EscapePath U (str "github.com/Azure/azure-sdk-for-go")
  = (str "github.com/!azure/azure-sdk-for-go", None)
  /\ EscapePath U (str "github.com/Sirupsen/logrus")
     = (str "github.com/!sirupsen/logrus", None)
  /\ EscapePath U (str "github.com/GoogleCloudPlatform/cloudsql-proxy")
     = (str "github.com/!google!cloud!platform/cloudsql-proxy", None).
Proof. repeat split. Qed.

Lemma rejection_examples (U : unicode_tables) :
  CheckPath U (str "Example.com/pkg")
  = Some (Errorf
            "malformed module path %q: invalid char %q in first path element"
            [ArgStr (str "Example.com/pkg"); ArgRune (rn "E")])
  /\ CheckImportPath U (str "a/../b")
     = Some (Errorf "malformed import path %q: %v"
               [ArgStr (str "a/../b"); ArgErr (Errorf "double dot" [])])
  /\ CheckFilePath U (str "a/CON.txt")
     = Some (Errorf "malformed file path %q: %v"
               [ArgStr (str "a/CON.txt");
                ArgErr (Errorf
                          "%q disallowed as path element component on Windows"
                          [ArgStr (str "CON")])]).
Proof. repeat split. Qed.

(** *** Module paths *)

Lemma Index_byte_length (c : ascii) (v : gostring) :
  match Index v [c] with Some i => i | None => length v end
  = length (fst (span (fun x => negb (byte_eqb x c)) v)).
Proof.
  induction v as [|x v IH]; [reflexivity|].
  simpl. destruct (byte_eqb x c); simpl; [reflexivity|].
  destruct (span (fun x0 => negb (byte_eqb x0 c)) v) as [d r].
  destruct (Index v [c]); simpl in *; now rewrite IH.
Qed.

Lemma first_element_index (p : gostring) :
  let i := match Index p (str "/") with
           | Some i => i
           | None => length p
           end in
  i = length (first_element p) /\ firstn i p = first_element p.
Proof.
  cbv zeta. change (str "/") with ["/"%char].
  pose proof (Index_byte_length "/" p) as Hl.
  fold notSlash in Hl. fold (first_element p) in Hl.
  split; [exact Hl|]. rewrite Hl. unfold first_element.
  destruct (span notSlash p) as [d r] eqn:E.
  destruct (span_spec _ _ _ _ E) as (-> & _ & _). simpl.
  apply firstn_app_exact.
Qed.

Lemma first_element_prefix (p : gostring) :
  exists r, p = first_element p ++ r.
Proof.
  unfold first_element. destruct (span notSlash p) as [d r] eqn:E.
  destruct (span_spec _ _ _ _ E) as (-> & _ & _). now exists r.
Qed.

Lemma split_on_head (p : gostring) :
  exists es, split_on "/" p = first_element p :: es.
Proof.
  unfold first_element. induction p as [|c p [es IH]]; simpl.
  - now exists [].
  - unfold notSlash at 1. destruct (byte_eqb c "/"); simpl.
    + eexists. reflexivity.
    + rewrite IH. destruct (span notSlash p) as [d r]. simpl.
      now exists es.
Qed.

Lemma import_first_element (p : gostring) :
  import_path_valid p -> elem_valid (first_element p).
Proof.
  intros (_ & _ & _ & _ & _ & H). destruct (split_on_head p) as [es E].
  rewrite E in H. now inversion H.
Qed.

Lemma Contains_byte (s : gostring) (c : ascii) :
  Contains s [c] = true <-> In c s.
Proof.
  rewrite Contains_iff. unfold contains_sub. split.
  - intros (a & b & ->). apply in_or_app. right. now left.
  - intros H. apply in_split in H as (a & b & ->). now exists a, b.
Qed.

Lemma firstPathOK_ascii (r : Z) : firstPathOK r = true -> r < 128.
Proof.
  unfold firstPathOK. change (rn "-") with 45. change (rn ".") with 46.
  change (rn "0") with 48. change (rn "9") with 57.
  change (rn "a") with 97. change (rn "z") with 122.
  intros H.
  repeat match goal with
         | H : _ || _ = true |- _ => apply orb_true_iff in H as [H | H]
         | H : _ && _ = true |- _ => apply andb_true_iff in H as [? ?]
         | H : (_ =? _) = true |- _ => apply Z.eqb_eq in H
         | H : (_ <=? _) = true |- _ => apply Z.leb_le in H
         end; lia.
Qed.

Lemma firstPathOK_first_chars (c : ascii) :
  firstPathOK (b2z c) = existsb (byte_eqb c) first_chars.
Proof.
  destruct c as [[] [] [] [] [] [] [] []]; vm_compute; reflexivity.
Qed.

Lemma firstPathOK_runes (e : gostring) :
  find (fun r => negb (firstPathOK r)) (runes e) = None
  <-> Forall (fun c => In c first_chars) e.
Proof.
  rewrite find_none_forallb, (runes_forallb firstPathOK e firstPathOK_ascii).
  rewrite forallb_forall, Forall_forall.
  split; intros H x Hx; specialize (H x Hx);
    rewrite firstPathOK_first_chars in *; now apply existsb_byte_In.
Qed.

(** X1: [CheckPath] accepts a path exactly when it is a valid import path
    whose first element consists of lower-case ASCII letters, digits, [-]
    and [.], contains a dot and does not start with a dash, and whose
    major-version suffix [SplitPathVersion] accepts. *)
Theorem CheckPath_spec (U : unicode_tables) (p : gostring) :
  CheckPath U p = None <-> module_path_valid p.
Proof.
  unfold CheckPath, module_path_valid.
  destruct (checkPath U p false) as [err|] eqn:Hc.
  { split; [discriminate|]. intros [H _].
    apply (checkPath_import U) in H. congruence. }
  apply checkPath_import in Hc.
  destruct (first_element_index p) as [Hi Hf]. cbv zeta in Hi, Hf.
  rewrite Hf, Hi.
  pose proof (import_first_element p Hc) as (Hne & _).
  destruct (first_element_prefix p) as [r Hp].
  destruct (Nat.eqb_spec (length (first_element p)) 0) as [H0|H0].
  { apply length_zero_iff_nil in H0. contradiction. }
  change (str ".") with ["."%char].
  destruct (Contains (first_element p) ["."%char]) eqn:Hdot; cbn [negb].
  2:{ split; [discriminate|]. intros (_ & _ & H & _).
      apply Contains_byte in H. congruence. }
  apply Contains_byte in Hdot.
  assert (Hb : byteAt p 0 = byteAt (first_element p) 0).
  { rewrite Hp at 1. apply byteAt_app_l.
    destruct (first_element p); [contradiction | simpl; lia]. }
  rewrite Hb.
  destruct (byte_eqb (byteAt (first_element p) 0) "-") eqn:Hd.
  { apply (first_byte_iff _ _ Hne) in Hd as [t Ht].
    split; [discriminate|]. intros (_ & _ & _ & H & _). now apply H in Ht. }
  assert (Hdash : forall t, first_element p <> "-"%char :: t).
  { intros t Ht.
    assert (byte_eqb (byteAt (first_element p) 0) "-" = true)
      by (apply (first_byte_iff _ _ Hne); eauto).
    congruence. }
  destruct (find _ (runes (first_element p))) as [r0|] eqn:Hch.
  { split; [discriminate|]. intros (_ & H & _).
    apply firstPathOK_runes in H. congruence. }
  apply firstPathOK_runes in Hch.
  destruct (SplitPathVersion p) as [[prefix pathMajor] ok]. simpl snd.
  destruct ok; cbn [negb]; split; try discriminate; try tauto.
  intros (_ & _ & _ & _ & H). discriminate H.
Qed.

(** X2: [CheckPath] never reports a leading slash: a path that starts with
    ['/'] has an empty first element, which [checkPath] rejects before. *)
Theorem CheckPath_never_leading_slash (U : unicode_tables) (p : gostring) :
  CheckPath U p
  <> Some (Errorf "malformed module path %q: leading slash" [ArgStr p]).
Proof.
  unfold CheckPath.
  destruct (checkPath U p false) as [err|] eqn:Hc; [discriminate|].
  apply checkPath_import in Hc.
  destruct (first_element_index p) as [Hi _]. cbv zeta in Hi. rewrite Hi.
  pose proof (import_first_element p Hc) as (Hne & _).
  destruct (Nat.eqb_spec (length (first_element p)) 0) as [H0|H0].
  { apply length_zero_iff_nil in H0. contradiction. }
  destruct (negb _); [discriminate|].
  destruct (byte_eqb _ _); [discriminate|].
  destruct (find _ _); [discriminate|].
  destruct (SplitPathVersion p) as [[prefix pathMajor] ok].
  destruct (negb ok); discriminate.
Qed.

(** *** File paths *)

Lemma pathOK_fileNameOK (U : unicode_tables) (r : Z) :
  pathOK r = true -> fileNameOK U r = true.
Proof.
  unfold pathOK, fileNameOK.
  destruct (r <? RuneSelf); [|discriminate].
  destruct (((rn "0" <=? r) && (r <=? rn "9"))
            || ((rn "A" <=? r) && (r <=? rn "Z"))
            || ((rn "a" <=? r) && (r <=? rn "z"))) eqn:Hal.
  - reflexivity.
  - apply orb_false_iff in Hal as [Hal Hl].
    apply orb_false_iff in Hal as [Hd Hu]. rewrite Hd, Hu, Hl.
    rewrite !orb_false_r. intros H.
    repeat match goal with
           | H : _ || _ = true |- _ => apply orb_true_iff in H as [H | H]
           end;
      apply Z.eqb_eq in H; subst r; reflexivity.
Qed.

Lemma find_negb_impl {A : Type} (p q : A -> bool) (l : list A) :
  (forall x, p x = true -> q x = true) ->
  find (fun x => negb (p x)) l = None ->
  find (fun x => negb (q x)) l = None.
Proof.
  intros Hpq. rewrite !find_none_forallb, !forallb_forall. auto.
Qed.

Lemma checkElem_import_file (U : unicode_tables) (e : gostring) :
  checkElem U e false = None -> checkElem U e true = None.
Proof.
  unfold checkElem.
  destruct (streq e []); [discriminate|].
  destruct (Nat.eqb (Count1 e ".") (length e)); [discriminate|].
  cbn [negb]. rewrite andb_false_r.
  destruct (byte_eqb (byteAt e 0) "." && true); [discriminate|].
  destruct (byte_eqb (byteAt e (length e - 1)) "."); [discriminate|].
  destruct (find (fun r => negb (pathOK r)) (runes e)) eqn:Hf;
    [discriminate|].
  rewrite (find_negb_impl pathOK (fileNameOK U) _ (pathOK_fileNameOK U) Hf).
  trivial.
Qed.

Lemma checkPath_import_file (U : unicode_tables) (p : gostring) :
  checkPath U p false = None -> checkPath U p true = None.
Proof.
  unfold checkPath.
  destruct (negb (ValidString p)); [discriminate|].
  destruct (streq p []); [discriminate|].
  destruct (Contains p (str "..")); [discriminate|].
  destruct (Contains p (str "//")); [discriminate|].
  destruct (byte_eqb _ "/"); [discriminate|].
  intros H. apply checkPath_elements in H. apply checkPath_elements.
  eapply Forall_impl; [|exact H]. apply checkElem_import_file.
Qed.

(** X3: every valid import path is a valid file path, and some file path
    (one with an element that starts with a dot) is not an import path. *)
Theorem CheckImportPath_CheckFilePath (U : unicode_tables) :
  (forall p, CheckImportPath U p = None -> CheckFilePath U p = None)
  /\ (exists p, CheckFilePath U p = None /\ CheckImportPath U p <> None).
Proof.
  split.
  - intros p. unfold CheckImportPath, CheckFilePath.
    destruct (checkPath U p false) eqn:H; [discriminate|].
    now rewrite (checkPath_import_file U p H).
  - exists (str "a/.gitignore"). split; [reflexivity | discriminate].
Qed.

Lemma CheckImportPath_CheckFilePath_witness :
  (forall U, CheckImportPath U (str "golang.org/x/mod") = None)
  /\ (forall U, CheckFilePath U (str "golang.org/x/mod") = None).
Proof.
  split; intros U; [reflexivity|].
  apply (proj1 (CheckImportPath_CheckFilePath U)). reflexivity.
Defined.

Lemma range_In_ascii (c : ascii) (s : gostring) (i skip : nat) :
  b2z c < 128 -> In c s ->
  Forall (fun b => 128 <= b2z b) (firstn skip s) ->
  In (b2z c) (map snd (range_from i skip s)).
Proof.
  intros Hc. revert i skip.
  induction s as [|x s IH]; intros i skip Hin Hk; [contradiction|].
  cbn [range_from]. destruct skip as [|k].
  - destruct (DecodeRuneInString (x :: s)) as [r w] eqn:E.
    cbn [map snd].
    destruct (Z.lt_ge_cases (b2z x) 128) as [Hx|Hx].
    + rewrite (DecodeRune_ascii x s Hx) in E. injection E as <- <-.
      destruct Hin as [-> | Hin]; [now left|]. right.
      apply IH; [assumption | constructor].
    + destruct (DecodeRune_nonascii _ _ _ _ Hx E) as [_ Hf].
      destruct Hin as [-> | Hin]; [lia|]. right. now apply IH.
  - cbn [firstn] in Hk. inversion Hk as [|? ? Hx Hk']; subst.
    destruct Hin as [-> | Hin]; [lia|]. now apply IH.
Qed.

Lemma runes_In_ascii (c : ascii) (s : gostring) :
  b2z c < 128 -> In c s -> In (b2z c) (runes s).
Proof.
  intros Hc Hin. apply range_In_ascii; [assumption | assumption|].
  constructor.
Qed.

Lemma fileNameOK_file_chars (U : unicode_tables) (c : ascii) :
  b2z c < 128 -> fileNameOK U (b2z c) = existsb (byte_eqb c) file_chars.
Proof.
  destruct c as [[] [] [] [] [] [] [] []]; intros H;
    first [reflexivity | exfalso; vm_compute in H; discriminate H].
Qed.

Lemma checkElem_file_bytes (U : unicode_tables) (e : gostring) (c : ascii) :
  checkElem U e true = None -> In c e -> b2z c < 128 -> In c file_chars.
Proof.
  unfold checkElem. intros H Hin Hc.
  destruct (streq e []); [discriminate|].
  destruct (Nat.eqb _ _); [discriminate|].
  destruct (_ && _); [discriminate|].
  destruct (byte_eqb _ _); [discriminate|].
  destruct (find (fun r => negb (fileNameOK U r)) (runes e)) eqn:Hf;
    [discriminate|].
  apply find_none_forallb in Hf. rewrite forallb_forall in Hf.
  specialize (Hf _ (runes_In_ascii c e Hc Hin)).
  rewrite (fileNameOK_file_chars U c Hc) in Hf.
  now apply existsb_byte_In.
Qed.

Lemma checkPath_cases (U : unicode_tables) (p : gostring) (fileName : bool) :
  checkPath U p fileName = None ->
  Forall (fun e => checkElem U e fileName = None) (split_on "/" p).
Proof.
  unfold checkPath.
  destruct (negb (ValidString p)); [discriminate|].
  destruct (streq p []); [discriminate|].
  destruct (Contains p (str "..")); [discriminate|].
  destruct (Contains p (str "//")); [discriminate|].
  destruct (byte_eqb _ "/"); [discriminate|].
  apply checkPath_elements.
Qed.

(** X4: in a path that [CheckFilePath] accepts, every ASCII byte is ['/'],
    a letter, a digit, the space or one of
    [! # $ % & ( ) + , - . = @ [ ] ^ _ { } ~]; so no accepted path has a
    backslash, a colon or a shell character such as [*], [?], [<], [>] or
    [|]. *)
Theorem CheckFilePath_ascii_bytes (U : unicode_tables) (p : gostring)
  (c : ascii) :
  CheckFilePath U p = None -> In c p -> b2z c < 128 ->
  c = "/"%char \/ In c file_chars.
Proof.
  intros H Hin Hc.
  assert (Hp : checkPath U p true = None).
  { unfold CheckFilePath in H. destruct (checkPath U p true);
      [discriminate | reflexivity]. }
  apply checkPath_cases in Hp. rewrite Forall_forall in Hp.
  destruct (split_on_In "/" c p Hin) as [-> | (e & He & Hce)];
    [now left|].
  right. now apply (checkElem_file_bytes U e c (Hp e He)).
Qed.

Lemma CheckFilePath_ascii_bytes_witness :
  (forall U, CheckFilePath U (str "cmd/go/go.mod") = None)
  /\ In "."%char (str "cmd/go/go.mod")
  /\ ("."%char = "/"%char \/ In "."%char file_chars).
Proof.
  split; [reflexivity|]. split; [simpl; tauto|].
  apply (CheckFilePath_ascii_bytes
           {| letter_above_Latin1 := fun _ => false;
              SimpleFold_reaches := fun _ _ => false |}
           (str "cmd/go/go.mod") "."%char).
  - reflexivity.
  - simpl. tauto.
  - reflexivity.
Defined.

(** *** The escaped form on a case-insensitive medium *)

Lemma escapeString_inv (s e : gostring) :
  escapeString s = (e, None) -> Forall plain_byte s /\ e = escaped_form s.
Proof.
  intros H. pose proof (escapeString_ok_plain s e H) as Hp.
  rewrite (escapeString_plain s Hp) in H. injection H as <-. auto.
Qed.

Lemma EscapePath_inv (U : unicode_tables) (p e : gostring) :
  EscapePath U p = (e, None) ->
  CheckPath U p = None /\ Forall plain_byte p /\ e = escaped_form p.
Proof.
  unfold EscapePath. destruct (CheckPath U p); [discriminate|].
  intros H. split; [reflexivity|]. now apply escapeString_inv.
Qed.

Lemma EscapeVersion_inv (U : unicode_tables) (v e : gostring) :
  EscapeVersion U v = (e, None) ->
  checkElem U v true = None /\ Forall plain_byte v /\ e = escaped_form v.
Proof.
  unfold EscapeVersion. destruct (checkElem U v true); [discriminate|].
  destruct (Contains v (str "!")); [discriminate|]. cbn [orb].
  intros H. split; [reflexivity|]. now apply escapeString_inv.
Qed.

Lemma escape_byte_caseless (c : ascii) :
  b2z c < 128 -> Forall caseless_byte (escape_byte c).
Proof.
  intros Hc. unfold escape_byte, caseless_byte, isUpper.
  change (rn "A") with 65. change (rn "Z") with 90.
  pose proof (b2z_range c).
  destruct (Z.leb_spec 65 (b2z c)), (Z.leb_spec (b2z c) 90); cbn [andb];
    repeat constructor; try assumption; try reflexivity;
    rewrite ?b2z_z2b by lia; try lia.
Qed.

Lemma escaped_form_caseless (s : gostring) :
  is_ascii s -> Forall caseless_byte (escaped_form s).
Proof.
  unfold is_ascii, escaped_form. induction 1 as [|c s Hc Hs IH];
    [constructor|].
  cbn [flat_map]. apply Forall_app. split; [|exact IH].
  now apply escape_byte_caseless.
Qed.

(** X5: whatever [EscapePath] or [EscapeVersion] returns without error is
    ASCII and has no upper-case letter. *)
Theorem escape_output_caseless (U : unicode_tables) (s e : gostring) :
  EscapePath U s = (e, None) \/ EscapeVersion U s = (e, None) ->
  Forall caseless_byte e.
Proof.
  intros [H | H].
  - apply EscapePath_inv in H as (_ & Hp & ->).
    apply escaped_form_caseless. now apply plain_is_ascii.
  - apply EscapeVersion_inv in H as (_ & Hp & ->).
    apply escaped_form_caseless. now apply plain_is_ascii.
Qed.

Lemma escape_output_caseless_witness :
  (forall U, EscapePath U (str "github.com/BurntSushi/toml")
             = (str "github.com/!burnt!sushi/toml", None))
  /\ Forall caseless_byte (str "github.com/!burnt!sushi/toml").
Proof.
  split; [reflexivity|].
  apply (escape_output_caseless
           {| letter_above_Latin1 := fun _ => false;
              SimpleFold_reaches := fun _ _ => false |}
           (str "github.com/BurntSushi/toml")).
  left. reflexivity.
Defined.

Lemma fold_eq_caseless (s t : gostring) :
  Forall caseless_byte s -> Forall caseless_byte t -> fold_eq s t -> s = t.
Proof.
  unfold fold_eq. intros Hs. revert t.
  induction Hs as [|a s [_ Ha] Hs IH]; intros t Ht E.
  - destruct t; [reflexivity | discriminate].
  - destruct Ht as [|b t [_ Hb] Ht]; [discriminate|].
    cbn [map] in E. injection E as E1 E2.
    unfold lowerZ in E1. unfold isUpper in Ha, Hb.
    change (rn "A") with 65 in Ha, Hb. change (rn "Z") with 90 in Ha, Hb.
    rewrite Ha, Hb in E1. apply b2z_inj in E1. subst b.
    f_equal. now apply IH.
Qed.

(** X6: the escaped forms of two distinct valid paths, and of two distinct
    versions, differ even up to the case of letters: no two of them meet on
    a case-insensitive file system. *)
Theorem escape_injective_up_to_case (U : unicode_tables)
  (a b ea eb : gostring) :
  (EscapePath U a = (ea, None) /\ EscapePath U b = (eb, None))
  \/ (EscapeVersion U a = (ea, None) /\ EscapeVersion U b = (eb, None)) ->
  fold_eq ea eb -> a = b.
Proof.
  intros H Hf.
  assert (Hpl : Forall plain_byte a /\ ea = escaped_form a
                /\ Forall plain_byte b /\ eb = escaped_form b).
  { destruct H as [[Ha Hb] | [Ha Hb]].
    - apply EscapePath_inv in Ha as (_ & Ha & Ea).
      apply EscapePath_inv in Hb as (_ & Hb & Eb). auto.
    - apply EscapeVersion_inv in Ha as (_ & Ha & Ea).
      apply EscapeVersion_inv in Hb as (_ & Hb & Eb). auto. }
  destruct Hpl as (Ha & -> & Hb & ->).
  apply escaped_form_inj; try assumption.
  apply fold_eq_caseless; try assumption;
    apply escaped_form_caseless; now apply plain_is_ascii.
Qed.

Lemma escape_injective_up_to_case_witness :
  (forall U, EscapePath U (str "rsc.io/quote") = (str "rsc.io/quote", None))
  /\ fold_eq (str "rsc.io/quote") (str "rsc.io/quote")
  /\ str "rsc.io/quote" = str "rsc.io/quote".
Proof.
  split; [reflexivity|]. split; [reflexivity|].
  apply (escape_injective_up_to_case
           {| letter_above_Latin1 := fun _ => false;
              SimpleFold_reaches := fun _ _ => false |}
           (str "rsc.io/quote") (str "rsc.io/quote")
           (str "rsc.io/quote") (str "rsc.io/quote")).
  - left. split; reflexivity.
  - reflexivity.
Defined.

Lemma escape_byte_length (c : ascii) :
  length (escape_byte c) = if isUpper (b2z c) then 2%nat else 1%nat.
Proof.
  unfold escape_byte, isUpper. change (rn "A") with 65.
  change (rn "Z") with 90.
  destruct ((65 <=? b2z c) && (b2z c <=? 90)); reflexivity.
Qed.

Lemma escaped_form_length (s : gostring) :
  length (escaped_form s) = (length s + count_upper s)%nat.
Proof.
  unfold escaped_form, count_upper. induction s as [|c s IH];
    [reflexivity|].
  cbn [flat_map filter]. rewrite length_app, escape_byte_length, IH.
  destruct (isUpper (b2z c)); simpl; lia.
Qed.

(** X7: escaping a valid path makes it longer by one byte for each
    upper-case letter; the escaped form is the path itself exactly when the
    path has no upper-case letter. *)
Theorem EscapePath_length (U : unicode_tables) (p : gostring) :
  CheckPath U p = None ->
  length (fst (EscapePath U p)) = (length p + count_upper p)%nat
  /\ (fst (EscapePath U p) = p <-> count_upper p = 0%nat).
Proof.
  intros H. rewrite (EscapePath_ok U p H). cbn [fst].
  split; [apply escaped_form_length|]. split.
  - intros E. apply (f_equal (@length ascii)) in E.
    rewrite escaped_form_length in E. lia.
  - intros E. apply escaped_form_no_upper. unfold count_upper in E.
    apply length_zero_iff_nil in E.
    destruct (existsb (fun c => isUpper (b2z c)) p) eqn:Hex; [|reflexivity].
    apply existsb_exists in Hex as (x & Hx & Hu).
    assert (Hin : In x (filter (fun c => isUpper (b2z c)) p))
      by (apply filter_In; auto).
    rewrite E in Hin. contradiction.
Qed.

Lemma EscapePath_length_witness :
  (forall U, CheckPath U (str "github.com/Azure/azure-sdk-for-go") = None)
  /\ (forall U,
        length (fst (EscapePath U (str "github.com/Azure/azure-sdk-for-go")))
        = (length (str "github.com/Azure/azure-sdk-for-go") + 1)%nat).
Proof.
  split; intros U; [reflexivity|].
  apply (proj1 (EscapePath_length U
                  (str "github.com/Azure/azure-sdk-for-go") eq_refl)).
Defined.

Lemma escaped_form_snoc (s : gostring) (c : ascii) :
  escaped_form (s ++ [c]) = escaped_form s ++ escape_byte c.
Proof.
  unfold escaped_form. rewrite flat_map_app. simpl. now rewrite app_nil_r.
Qed.

Lemma escaped_form_no_trailing_bang (s t : gostring) :
  Forall plain_byte s -> escaped_form s <> t ++ ["!"%char].
Proof.
  destruct s as [|c s _] using rev_ind.
  - intros _ H. destruct t; discriminate H.
  - intros Hs H. rewrite escaped_form_snoc in H.
    apply Forall_app in Hs as [_ Hc]. inversion Hc as [|? ? [Hlt Hb] _]; subst.
    unfold escape_byte in H.
    destruct ((65 <=? b2z c) && (b2z c <=? 90)) eqn:Hu.
    + change [ "!"%char; z2b (b2z c + 32)]
        with (["!"%char] ++ [z2b (b2z c + 32)]) in H.
      rewrite app_assoc in H. apply app_inj_tail in H as [_ H].
      apply andb_true_iff in Hu as [H1 H2].
      apply Z.leb_le in H1, H2.
      apply (f_equal b2z) in H. rewrite b2z_z2b in H by lia.
      change (b2z "!") with 33 in H. lia.
    + apply app_inj_tail in H as [_ H]. contradiction.
Qed.

(** X8: [UnescapePath] and [UnescapeVersion] accept only ASCII strings that
    have no upper-case letter and do not end in ['!']. *)
Theorem unescape_accepts_caseless (U : unicode_tables) (e s : gostring) :
  UnescapePath U e = (s, None) \/ UnescapeVersion U e = (s, None) ->
  Forall caseless_byte e /\ (forall t, e <> t ++ ["!"%char]).
Proof.
  intros H.
  assert (Hs : Forall plain_byte s /\ e = escaped_form s).
  { destruct H as [H | H].
    - apply UnescapePath_inv in H as [Hc ->].
      split; [now apply (CheckPath_plain U) | reflexivity].
    - apply UnescapeVersion_inv in H as (_ & Hp & ->). auto. }
  destruct Hs as [Hp ->]. split.
  - apply escaped_form_caseless. now apply plain_is_ascii.
  - intros t. now apply escaped_form_no_trailing_bang.
Qed.

Lemma unescape_accepts_caseless_witness :
  (forall U, UnescapeVersion U (str "v1.0.0-!beta")
             = (str "v1.0.0-Beta", None))
  /\ Forall caseless_byte (str "v1.0.0-!beta").
Proof.
  split; [reflexivity|].
  apply (unescape_accepts_caseless
           {| letter_above_Latin1 := fun _ => false;
              SimpleFold_reaches := fun _ _ => false |}
           (str "v1.0.0-!beta") (str "v1.0.0-Beta")).
  right. reflexivity.
Defined.

Lemma escape_byte_no_slash (c : ascii) :
  c <> "/"%char -> ~ In "/"%char (escape_byte c).
Proof.
  intros Hc. unfold escape_byte.
  destruct ((65 <=? b2z c) && (b2z c <=? 90)) eqn:Hu.
  - apply andb_true_iff in Hu as [H1 H2]. apply Z.leb_le in H1, H2.
    pose proof (b2z_range c) as Hr.
    intros [H | [H | []]]; [discriminate H|].
    apply (f_equal b2z) in H. rewrite b2z_z2b in H by lia.
    change (b2z "/") with 47 in H. lia.
  - intros [H | []]. now apply Hc.
Qed.

(** X9: a version that [EscapeVersion] accepts, and its escaped form, have
    no ['/']: an escaped version is a single path element. *)
Theorem EscapeVersion_no_slash (U : unicode_tables) (v e : gostring) :
  EscapeVersion U v = (e, None) ->
  ~ In "/"%char v /\ ~ In "/"%char e.
Proof.
  intros H. apply EscapeVersion_inv in H as (Hc & _ & ->).
  assert (Hv : ~ In "/"%char v).
  { intros Hin.
    pose proof (checkElem_file_bytes U v "/" Hc Hin eq_refl) as Hf.
    apply existsb_byte_In in Hf. discriminate Hf. }
  split; [exact Hv|].
  unfold escaped_form. rewrite in_flat_map. intros (c & Hin & Hs).
  apply (escape_byte_no_slash c); [|exact Hs].
  intros ->. contradiction.
Qed.

Lemma EscapeVersion_no_slash_witness :
  (forall U, EscapeVersion U (str "v1.0.0-Beta")
             = (str "v1.0.0-!beta", None))
  /\ ~ In "/"%char (str "v1.0.0-!beta").
Proof.
  split; [reflexivity|].
  apply (EscapeVersion_no_slash
           {| letter_above_Latin1 := fun _ => false;
              SimpleFold_reaches := fun _ _ => false |}
           (str "v1.0.0-Beta") (str "v1.0.0-!beta")).
  reflexivity.
Defined.

(** *** The major version of a suffix *)

Lemma decimal_fold_ge (n : gostring) (acc : Z) :
  forallb isDigitB n = true -> 0 <= acc ->
  acc <= fold_left (fun a c => 10 * a + (b2z c - 48)) n acc.
Proof.
  revert acc. induction n as [|c n IH]; intros acc Hn Hacc; [simpl; lia|].
  cbn [forallb] in Hn. apply andb_true_iff in Hn as [Hc Hn].
  unfold isDigitB, isDigit in Hc. change (rn "0") with 48 in Hc.
  change (rn "9") with 57 in Hc.
  apply andb_true_iff in Hc as [H0 H9]. apply Z.leb_le in H0, H9.
  cbn [fold_left]. etransitivity; [|apply IH; [assumption | lia]]. lia.
Qed.

Lemma decimal_ge_2 (n : gostring) :
  forallb isDigitB n = true -> n <> [] -> starts_with_zero n = false ->
  n <> str "1" -> 2 <= decimal n.
Proof.
  intros Hn Hne Hz H1. destruct n as [|d rest]; [contradiction|].
  cbn [forallb] in Hn. apply andb_true_iff in Hn as [Hd Hr].
  unfold isDigitB, isDigit in Hd. change (rn "0") with 48 in Hd.
  change (rn "9") with 57 in Hd.
  apply andb_true_iff in Hd as [H0 H9]. apply Z.leb_le in H0, H9.
  simpl in Hz. apply byte_eqb_neq in Hz.
  assert (Hd0 : b2z d <> 48).
  { intros E. apply Hz. apply b2z_inj. exact E. }
  unfold decimal. cbn [fold_left].
  destruct rest as [|r rest].
  - cbn [fold_left].
    assert (b2z d <> 49).
    { intros E. apply H1. change (str "1") with ["1"%char]. f_equal.
      apply b2z_inj. exact E. }
    lia.
  - cbn [forallb] in Hr. apply andb_true_iff in Hr as [Hr Hrest].
    unfold isDigitB, isDigit in Hr. change (rn "0") with 48 in Hr.
    change (rn "9") with 57 in Hr.
    apply andb_true_iff in Hr as [Hr0 Hr9]. apply Z.leb_le in Hr0, Hr9.
    cbn [fold_left].
    etransitivity; [|apply decimal_fold_ge; [assumption | lia]]. lia.
Qed.

Lemma digits_without_dot (run : gostring) :
  forallb isDigitOrDot run = true -> has_dot run = false ->
  forallb isDigitB run = true.
Proof.
  unfold has_dot. induction run as [|c run IH]; [reflexivity|].
  cbn [forallb existsb]. intros H Hd.
  apply andb_true_iff in H as [Hc H].
  apply orb_false_iff in Hd as [Hcd Hd].
  unfold isDigitOrDot in Hc. rewrite Hcd, orb_false_r in Hc.
  rewrite Hc. now apply IH.
Qed.

(** X10: outside the legacy dialect, a non-empty suffix returned by
    [SplitPathVersion] is [/vN] where [N] is a decimal number without
    leading zero and at least 2, and the path is the prefix followed by
    that suffix. *)
Theorem SplitPathVersion_major_at_least_2
  (path prefix pathMajor : gostring) :
  HasPrefix path (str "gopkg.in/") = false ->
  SplitPathVersion path = (prefix, pathMajor, true) ->
  pathMajor <> [] ->
  exists n, pathMajor = str "/v" ++ n
            /\ path = prefix ++ str "/v" ++ n
            /\ forallb isDigitB n = true
            /\ starts_with_zero n = false
            /\ 2 <= decimal n.
Proof.
  intros Hg. rewrite (SplitPathVersion_generic path Hg).
  unfold generic_split.
  destruct (trailing_run isDigitOrDot path) as [pre run] eqn:E.
  destruct (trailing_run_spec _ _ _ _ E) as [Hp Hrun].
  destruct (HasSuffix pre (str "/v")) eqn:Hsuf; cbn [andb];
    [|intros H; inversion H; subst; contradiction].
  destruct run as [|c run]; cbn [is_nil negb];
    [intros H; inversion H; subst; contradiction|].
  destruct (has_dot (c :: run)) eqn:Hd; cbn [orb]; [discriminate|].
  destruct (starts_with_zero (c :: run)) eqn:Hz; cbn [orb]; [discriminate|].
  destruct (streq (c :: run) (str "1")) eqn:H1; [discriminate|].
  intros H _. inversion H; subst. clear H.
  exists (c :: run).
  apply HasSuffix_iff in Hsuf as [pre' ->].
  rewrite length_app. change (length (str "/v")) with 2%nat.
  rewrite Nat.add_sub.
  replace (pre' ++ str "/v") with (pre' ++ str "/v" ++ []) at 1
    by reflexivity.
  rewrite firstn_app_exact.
  pose proof (digits_without_dot _ Hrun Hd) as Hdig.
  repeat split; try assumption.
  - now rewrite <- app_assoc.
  - apply decimal_ge_2; try assumption; [discriminate|].
    now apply streq_neq.
Qed.

Lemma SplitPathVersion_major_at_least_2_witness :
  HasPrefix (str "example.com/pkg/v12") (str "gopkg.in/") = false
  /\ SplitPathVersion (str "example.com/pkg/v12")
     = (str "example.com/pkg", str "/v12", true)
  /\ exists n, str "/v12" = str "/v" ++ n
               /\ str "example.com/pkg/v12"
                  = str "example.com/pkg" ++ str "/v" ++ n
               /\ forallb isDigitB n = true
               /\ starts_with_zero n = false
               /\ 2 <= decimal n.
Proof.
  split; [reflexivity|]. split; [reflexivity|].
  apply (SplitPathVersion_major_at_least_2 (str "example.com/pkg/v12"));
    [reflexivity | reflexivity | discriminate].
Defined.

(** X11: [MatchPathMajor] ignores the [-unstable] marker of a legacy
    suffix: [.vN-unstable] matches the same versions as [.vN]. *)
Theorem MatchPathMajor_unstable (sv : semver_pkg) (v n : gostring) :
  forallb isDigitB n = true ->
  MatchPathMajor sv v (str ".v" ++ n ++ str "-unstable")
  = MatchPathMajor sv v (str ".v" ++ n).
Proof.
  intros Hn.
  rewrite (MatchPathMajor_dot sv v n (str "-unstable") Hn (or_intror eq_refl)).
  pose proof (MatchPathMajor_dot sv v n [] Hn (or_introl eq_refl)) as H.
  rewrite app_nil_r in H. now rewrite H.
Qed.

Lemma MatchPathMajor_unstable_witness :
  forallb isDigitB (str "2") = true
  /\ MatchPathMajor semver_model (str "v2.3.4") (str ".v2-unstable") = true
  /\ MatchPathMajor semver_model (str "v2.3.4") (str ".v2-unstable")
     = MatchPathMajor semver_model (str "v2.3.4") (str ".v2").
Proof.
  split; [reflexivity|]. split; [reflexivity|].
  apply (MatchPathMajor_unstable semver_model (str "v2.3.4") (str "2")).
  reflexivity.
Defined.

(** *** The syntax [Path@Version] *)

Lemma app_sep_inj (c : ascii) (a a' b b' : gostring) :
  ~ In c a -> ~ In c a' -> a ++ c :: b = a' ++ c :: b' ->
  a = a' /\ b = b'.
Proof.
  revert a'. induction a as [|x a IH]; intros [|y a'] Ha Ha' E;
    simpl in *.
  - injection E as E. auto.
  - injection E as E1 E2. exfalso. apply Ha'. left. congruence.
  - injection E as E1 E2. exfalso. apply Ha. left. congruence.
  - injection E as E1 E2. subst y.
    destruct (IH a') as [-> ->]; auto.
Qed.

Lemma CheckPath_no_at (U : unicode_tables) (p : gostring) :
  CheckPath U p = None -> ~ In "@"%char p.
Proof.
  intros H Hin.
  assert (Hc : checkPath U p false = None).
  { unfold CheckPath in H. destruct (checkPath U p false);
      [discriminate | reflexivity]. }
  apply checkPath_import in Hc. destruct Hc as (_ & _ & _ & _ & _ & Hel).
  destruct (split_on_In "/" "@" p Hin) as [E | (e & He & Hce)];
    [discriminate E|].
  rewrite Forall_forall in Hel.
  destruct (Hel e He) as (_ & _ & _ & _ & Hch & _).
  rewrite Forall_forall in Hch. specialize (Hch _ Hce).
  apply pathOK_import_char in Hch. discriminate Hch.
Qed.

(** X12: on valid module paths the syntax [Path@Version] is unambiguous:
    two identifiers with the same [String] and valid paths are equal. *)
Theorem Version_String_injective (U : unicode_tables) (m1 m2 : Version) :
  CheckPath U (Path m1) = None -> CheckPath U (Path m2) = None ->
  Version_String m1 = Version_String m2 -> m1 = m2.
Proof.
  unfold Version_String. destruct m1 as [p1 v1], m2 as [p2 v2].
  cbn [Path Version_]. intros H1 H2 E.
  destruct (app_sep_inj "@" p1 p2 v1 v2) as [-> ->];
    [now apply (CheckPath_no_at U) | now apply (CheckPath_no_at U)
    | exact E | reflexivity].
Qed.

Lemma Version_String_injective_witness :
  (forall U, CheckPath U (str "rsc.io/quote") = None)
  /\ Version_String {| Path := str "rsc.io/quote"; Version_ := str "v1.5.2" |}
     = str "rsc.io/quote@v1.5.2"
  /\ {| Path := str "rsc.io/quote"; Version_ := str "v1.5.2" |}
     = {| Path := str "rsc.io/quote"; Version_ := str "v1.5.2" |}.
Proof.
  split; [reflexivity|]. split; [reflexivity|].
  apply (Version_String_injective
           {| letter_above_Latin1 := fun _ => false;
              SimpleFold_reaches := fun _ _ => false |});
    reflexivity.
Defined.

(** Without the check the syntax is ambiguous. *)
Lemma Version_String_ambiguous :
  Version_String {| Path := str "a@b"; Version_ := str "c" |}
  = Version_String {| Path := str "a"; Version_ := str "b@c" |}.
Proof. reflexivity. Qed.

(** *** The order of [Sort] *)

Lemma Sort_less_unfold (Compare : gostring -> gostring -> Z)
  (mi mj : Version) :
  Sort_less Compare mi mj =
  if streq (Path mi) (Path mj) then
    if streq (semver_part (Version_ mi)) (semver_part (Version_ mj))
    then strlt (file_tag (Version_ mi)) (file_tag (Version_ mj))
    else Compare (semver_part (Version_ mi)) (semver_part (Version_ mj)) <? 0
  else strlt (Path mi) (Path mj).
Proof.
  unfold Sort_less, semver_part, file_tag. rewrite !Index_slash_span.
  destruct (span notSlash (Version_ mi)) as [vi fi].
  destruct (span notSlash (Version_ mj)) as [vj fj]. cbn [fst snd].
  destruct (streq (Path mi) (Path mj)); cbn [negb]; [|reflexivity].
  destruct (streq vi vj); reflexivity.
Qed.

Lemma strlt_irrefl (s : gostring) : strlt s s = false.
Proof.
  destruct (strlt s s) eqn:E; [|reflexivity].
  apply strlt_lex in E. now apply lex_lt_irrefl in E.
Qed.

Lemma strlt_asym (s t : gostring) : strlt s t = true -> strlt t s = false.
Proof.
  intros H. destruct (strlt t s) eqn:E; [|reflexivity].
  apply strlt_lex in H, E.
  exfalso. apply (lex_lt_irrefl s). now apply (lex_lt_trans s t s).
Qed.

Lemma strlt_trans (s t u : gostring) :
  strlt s t = true -> strlt t u = true -> strlt s u = true.
Proof.
  rewrite !strlt_lex. apply lex_lt_trans.
Qed.

Lemma strlt_neq (s t : gostring) : strlt s t = true -> streq s t = false.
Proof.
  intros H. apply streq_neq. intros ->. rewrite strlt_irrefl in H.
  discriminate H.
Qed.

(** X13: the comparator of [Sort] is irreflexive; it is asymmetric when
    [semver.Compare] never puts two versions before each other, and
    transitive when moreover the precedence of [semver.Compare] is
    transitive. *)
Theorem Sort_less_strict_order (Compare : gostring -> gostring -> Z) :
  (forall m, Sort_less Compare m m = false)
  /\ ((forall a b, Compare a b < 0 -> ~ Compare b a < 0) ->
      (forall m1 m2, Sort_less Compare m1 m2 = true ->
                     Sort_less Compare m2 m1 = false)
      /\ ((forall a b c, Compare a b < 0 -> Compare b c < 0 ->
                         Compare a c < 0) ->
          forall m1 m2 m3,
            Sort_less Compare m1 m2 = true ->
            Sort_less Compare m2 m3 = true ->
            Sort_less Compare m1 m3 = true)).
Proof.
  split; [|intros Hasym; split; [|intros Htrans]].
  - intros m. rewrite Sort_less_unfold, !streq_refl. apply strlt_irrefl.
  - intros m1 m2. rewrite !Sort_less_unfold.
    destruct (streq (Path m1) (Path m2)) eqn:Hp.
    + apply streq_eq in Hp. rewrite <- Hp, streq_refl.
      destruct (streq (semver_part (Version_ m1)) (semver_part (Version_ m2)))
        eqn:Hv.
      * apply streq_eq in Hv. rewrite <- Hv, streq_refl. apply strlt_asym.
      * assert (Hv' : streq (semver_part (Version_ m2))
                        (semver_part (Version_ m1)) = false).
        { apply streq_neq. apply streq_neq in Hv. congruence. }
        rewrite Hv'. intros H. apply Z.ltb_lt in H. apply Z.ltb_ge.
        specialize (Hasym _ _ H). lia.
    + assert (Hp' : streq (Path m2) (Path m1) = false).
      { apply streq_neq. apply streq_neq in Hp. congruence. }
      rewrite Hp'. apply strlt_asym.
  - intros m1 m2 m3. rewrite !Sort_less_unfold.
    set (v1 := semver_part (Version_ m1)).
    set (v2 := semver_part (Version_ m2)).
    set (v3 := semver_part (Version_ m3)).
    destruct (streq (Path m1) (Path m2)) eqn:Hp12.
    + apply streq_eq in Hp12. rewrite <- Hp12.
      destruct (streq (Path m1) (Path m3)) eqn:Hp13; [|intros; assumption].
      destruct (streq v1 v2) eqn:Hv12.
      * apply streq_eq in Hv12. rewrite <- Hv12.
        destruct (streq v1 v3); [apply strlt_trans | intros; assumption].
      * destruct (streq v2 v3) eqn:Hv23.
        -- apply streq_eq in Hv23. rewrite <- Hv23, Hv12. intros; assumption.
        -- intros H1 H2. apply Z.ltb_lt in H1, H2.
           pose proof (Htrans _ _ _ H1 H2) as H13.
           destruct (streq v1 v3) eqn:Hv13; [|now apply Z.ltb_lt].
           apply streq_eq in Hv13. rewrite <- Hv13 in H2.
           exfalso. exact (Hasym _ _ H1 H2).
    + intros H12.
      destruct (streq (Path m2) (Path m3)) eqn:Hp23.
      * apply streq_eq in Hp23. rewrite <- Hp23, Hp12. intros; assumption.
      * intros H23. pose proof (strlt_trans _ _ _ H12 H23) as H13.
        now rewrite (strlt_neq _ _ H13).
Qed.

Lemma lex_Compare_lt (a b : gostring) :
  lex_Compare a b < 0 <-> strlt a b = true.
Proof.
  unfold lex_Compare. destruct (strlt a b); [split; [reflexivity | lia]|].
  destruct (strlt b a); split; try discriminate; lia.
Qed.

Lemma Sort_less_strict_order_witness :
  (forall a b, lex_Compare a b < 0 -> ~ lex_Compare b a < 0)
  /\ (forall a b c, lex_Compare a b < 0 -> lex_Compare b c < 0 ->
                    lex_Compare a c < 0)
  /\ (forall m1 m2 m3,
        Sort_less lex_Compare m1 m2 = true ->
        Sort_less lex_Compare m2 m3 = true ->
        Sort_less lex_Compare m1 m3 = true).
Proof.
  assert (Ha : forall a b, lex_Compare a b < 0 -> ~ lex_Compare b a < 0).
  { intros a b H H'. apply lex_Compare_lt in H, H'.
    rewrite (strlt_asym _ _ H) in H'. discriminate H'. }
  assert (Ht : forall a b c, lex_Compare a b < 0 -> lex_Compare b c < 0 ->
                             lex_Compare a c < 0).
  { intros a b c H H'. apply lex_Compare_lt in H, H'.
    apply lex_Compare_lt. now apply (strlt_trans a b c). }
  split; [exact Ha|]. split; [exact Ht|].
  exact (proj2 (proj2 (Sort_less_strict_order lex_Compare) Ha) Ht).
Defined.

(** *** The escaped form as a file path *)

Lemma escape_byte_cases (c : ascii) :
  (isUpper (b2z c) = true
   /\ escape_byte c = ["!"%char; z2b (b2z c + 32)]
   /\ 97 <= b2z (z2b (b2z c + 32)) <= 122)
  \/ (isUpper (b2z c) = false /\ escape_byte c = [c]).
Proof.
  unfold escape_byte, isUpper. change (rn "A") with 65.
  change (rn "Z") with 90. pose proof (b2z_range c) as Hr.
  destruct ((65 <=? b2z c) && (b2z c <=? 90)) eqn:Hu; [left | right; auto].
  apply andb_true_iff in Hu as [H1 H2]. apply Z.leb_le in H1, H2.
  rewrite b2z_z2b by lia. repeat split; lia.
Qed.

Lemma ValidString_ascii (s : gostring) : is_ascii s -> ValidString s = true.
Proof.
  unfold ValidString. induction 1 as [|c s Hc Hs IH]; [reflexivity|].
  cbn [valid_from decodeSeq]. unfold RuneSelf.
  replace (b2z c <? 128) with true by (symmetry; now apply Z.ltb_lt).
  exact IH.
Qed.

Lemma escaped_form_nonempty (s : gostring) : s <> [] -> escaped_form s <> [].
Proof.
  intros Hs E. apply (f_equal (@length ascii)) in E.
  rewrite escaped_form_length in E. destruct s; [contradiction|].
  simpl in E. lia.
Qed.

(** A dot or a slash of the escaped form is a dot or a slash of the
    string itself. *)
Lemma escape_byte_head_sep (x c : ascii) (rest : gostring) :
  x = "."%char \/ x = "/"%char ->
  escape_byte c = x :: rest -> c = x /\ rest = [].
Proof.
  intros Hx E.
  destruct (escape_byte_cases c) as [(_ & Hc & _) | (_ & Hc)];
    rewrite Hc in E.
  - injection E as E _. destruct Hx; subst; discriminate.
  - injection E as E1 E2. auto.
Qed.

Lemma escaped_form_prefix_sep (sub q b : gostring) :
  Forall (fun x => x = "."%char \/ x = "/"%char) sub ->
  escaped_form q = sub ++ b ->
  exists b0, q = sub ++ b0 /\ b = escaped_form b0.
Proof.
  intros Hsub. revert q. induction Hsub as [|x sub Hx Hsub IH]; intros q E.
  - now exists q.
  - destruct q as [|c q]; [discriminate|].
    unfold escaped_form in E. cbn [flat_map] in E. fold (escaped_form q) in E.
    destruct (escape_byte c) as [|y rest] eqn:Ec.
    { destruct (escape_byte_cases c) as [(_ & Hc & _) | (_ & Hc)];
        rewrite Hc in Ec; discriminate. }
    simpl in E. injection E as -> E.
    destruct (escape_byte_head_sep x c rest Hx Ec) as [-> ->].
    destruct (IH q E) as (b0 & -> & ->). now exists b0.
Qed.

Lemma escaped_form_contains_sep (sub p : gostring) :
  Forall (fun x => x = "."%char \/ x = "/"%char) sub -> sub <> [] ->
  contains_sub (escaped_form p) sub -> contains_sub p sub.
Proof.
  intros Hsub Hne (a & b & E). revert a E.
  induction p as [|c p IH]; intros a E.
  - destruct a; destruct sub; try contradiction; discriminate.
  - destruct a as [|y a].
    + destruct (escaped_form_prefix_sep sub (c :: p) b Hsub E) as (b0 & -> & _).
      now exists [], b0.
    + unfold escaped_form in E. cbn [flat_map] in E.
      fold (escaped_form p) in E.
      destruct (escape_byte_cases c) as [(_ & Hc & Hl) | (_ & Hc)];
        rewrite Hc in E; simpl in E; injection E as _ E.
      * destruct a as [|z a].
        -- destruct sub as [|x sub]; [contradiction|].
           simpl in E. injection E as Ex _.
           inversion Hsub as [|? ? Hx _]; subst.
           destruct Hx as [Hx | Hx]; rewrite Hx in Hl; vm_compute in Hl;
             destruct Hl as [Hl _]; now exfalso.
        -- simpl in E. injection E as _ E.
           destruct (IH a E) as (a0 & b0 & ->). now exists (c :: a0), b0.
      * destruct (IH a E) as (a0 & b0 & ->). now exists (c :: a0), b0.
Qed.

Lemma escaped_form_last_sep (x : ascii) (s t : gostring) :
  x = "."%char \/ x = "/"%char ->
  escaped_form s = t ++ [x] -> exists t0, s = t0 ++ [x].
Proof.
  intros Hx. destruct s as [|c s _] using rev_ind.
  - intros E. destruct t; discriminate E.
  - rewrite escaped_form_snoc. intros E.
    destruct (escape_byte_cases c) as [(_ & Hc & Hl) | (_ & Hc)];
      rewrite Hc in E.
    + change ["!"%char; z2b (b2z c + 32)]
        with (["!"%char] ++ [z2b (b2z c + 32)]) in E.
      rewrite app_assoc in E. apply app_inj_tail in E as [_ E].
      destruct Hx as [Hx | Hx]; rewrite Hx in E; rewrite E in Hl;
        vm_compute in Hl; destruct Hl as [Hl _]; now exfalso.
    + apply app_inj_tail in E as [_ ->]. now exists s.
Qed.

Lemma escaped_form_all_dots (e : gostring) :
  Forall (eq "."%char) (escaped_form e) -> Forall (eq "."%char) e.
Proof.
  induction e as [|c e IH]; [constructor|].
  unfold escaped_form. cbn [flat_map]. fold (escaped_form e). intros H.
  apply Forall_app in H as [Hc He].
  constructor; [|now apply IH].
  destruct (escape_byte_cases c) as [(_ & E & _) | (_ & E)];
    rewrite E in Hc; inversion Hc; subst; [discriminate | reflexivity].
Qed.

Lemma split_on_escaped (p : gostring) :
  split_on "/" (escaped_form p) = map escaped_form (split_on "/" p).
Proof.
  induction p as [|c p IH]; [reflexivity|].
  unfold escaped_form. cbn [flat_map]. fold (escaped_form p).
  destruct (split_on_head p) as [es Hes].
  cbn [split_on]. destruct (byte_eqb c "/") eqn:Hc.
  - apply byte_eqb_eq in Hc. subst c. simpl. now rewrite IH.
  - rewrite Hes in *. cbn [map] in *.
    destruct (escape_byte_cases c) as [(_ & E & Hl) | (_ & E)]; rewrite E.
    + simpl. rewrite IH.
      replace (byte_eqb (z2b (b2z c + 32)) "/") with false.
      * unfold escaped_form at 2. cbn [flat_map]. rewrite E. reflexivity.
      * symmetry. apply byte_eqb_neq. intros H. rewrite H in Hl.
        vm_compute in Hl. destruct Hl as [Hl _]. now apply Hl.
    + simpl. rewrite Hc, IH.
      unfold escaped_form at 2. cbn [flat_map]. rewrite E. reflexivity.
Qed.

Lemma span_notDot_escaped (e : gostring) :
  before_first_dot (escaped_form e) = escaped_form (before_first_dot e).
Proof.
  unfold before_first_dot. induction e as [|c e IH]; [reflexivity|].
  unfold escaped_form at 1. cbn [flat_map]. fold (escaped_form e).
  cbn [span]. unfold notDot at 2.
  destruct (byte_eqb c ".") eqn:Hc; cbn [negb].
  - apply byte_eqb_eq in Hc. subst c. reflexivity.
  - destruct (span notDot e) as [d r] eqn:Hs. cbn [fst] in *.
    destruct (escape_byte_cases c) as [(_ & E & Hl) | (_ & E)]; rewrite E.
    + simpl. unfold notDot at 1.
      replace (byte_eqb (z2b (b2z c + 32)) ".") with false.
      * cbn [negb]. destruct (span notDot (escaped_form e)) as [d' r'].
        cbn [fst] in *. subst d'.
        unfold escaped_form at 2. cbn [flat_map]. now rewrite E.
      * symmetry. apply byte_eqb_neq. intros H. rewrite H in Hl.
        vm_compute in Hl. destruct Hl as [Hl _]. now apply Hl.
    + simpl. unfold notDot at 1. rewrite Hc. cbn [negb].
      destruct (span notDot (escaped_form e)) as [d' r'].
      cbn [fst] in *. subst d'.
      unfold escaped_form at 2. cbn [flat_map]. now rewrite E.
Qed.

Lemma lower_in_file_chars (c : ascii) :
  isUpper (b2z c) = true -> In (z2b (b2z c + 32)) file_chars.
Proof.
  intros H. apply existsb_byte_In. revert H.
  destruct c as [[] [] [] [] [] [] [] []]; intros H;
    first [reflexivity | discriminate H].
Qed.

Lemma escaped_form_file_chars (e : gostring) :
  Forall (fun c => In c file_chars) e ->
  Forall (fun c => In c file_chars) (escaped_form e).
Proof.
  induction 1 as [|c e Hc He IH]; [constructor|].
  unfold escaped_form. cbn [flat_map]. apply Forall_app. split; [|exact IH].
  destruct (escape_byte_cases c) as [(Hu & E & _) | (_ & E)]; rewrite E.
  - constructor; [apply existsb_byte_In; reflexivity|].
    constructor; [now apply lower_in_file_chars | constructor].
  - now constructor.
Qed.

Lemma bang_not_reserved (bad s : gostring) :
  In bad badWindowsNames -> In "!"%char s -> ~ fold_eq bad s.
Proof.
  intros Hbad Hin E. unfold fold_eq in E.
  assert (H33 : In 33 (map (fun c => lowerZ (b2z c)) s)).
  { apply in_map_iff. exists "!"%char. auto. }
  rewrite <- E in H33.
  assert (Hall : forallb (fun b => negb (existsb (fun z => z =? 33)
                                          (map (fun c => lowerZ (b2z c)) b)))
                   badWindowsNames = true) by reflexivity.
  rewrite forallb_forall in Hall. specialize (Hall bad Hbad).
  apply negb_true_iff in Hall.
  assert (existsb (fun z => z =? 33) (map (fun c => lowerZ (b2z c)) bad)
          = true).
  { apply existsb_exists. exists 33. auto. }
  congruence.
Qed.

Lemma escaped_form_has_bang (s : gostring) :
  existsb (fun c => isUpper (b2z c)) s = true -> In "!"%char (escaped_form s).
Proof.
  intros H. apply existsb_exists in H as (c & Hin & Hu).
  unfold escaped_form. apply in_flat_map. exists c. split; [exact Hin|].
  destruct (escape_byte_cases c) as [(_ & E & _) | (Hn & _)];
    [rewrite E; now left | congruence].
Qed.

Lemma checkElem_escaped (U : unicode_tables) (e : gostring) :
  checkElem U e true = None -> Forall plain_byte e ->
  checkElem U (escaped_form e) true = None.
Proof.
  intros Hc Hp.
  assert (Hchars : Forall (fun c => In c file_chars) e).
  { apply Forall_forall. intros c Hin.
    apply (checkElem_file_bytes U e c Hc Hin).
    rewrite Forall_forall in Hp. now apply Hp. }
  pose proof (plain_is_ascii e Hp) as Hascii.
  unfold checkElem in *.
  destruct (streq e []) eqn:Hnil; [discriminate|].
  apply streq_neq in Hnil.
  replace (streq (escaped_form e) []) with false
    by (symmetry; apply streq_neq; now apply escaped_form_nonempty).
  destruct (Nat.eqb (Count1 e ".") (length e)) eqn:Hcnt; [discriminate|].
  destruct (Nat.eqb (Count1 (escaped_form e) ".")
              (length (escaped_form e))) eqn:Hcnt'.
  { apply Count1_all, escaped_form_all_dots, Count1_all in Hcnt'.
    congruence. }
  cbn [negb] in *. rewrite andb_false_r in *.
  destruct (byte_eqb (byteAt e (length e - 1)) ".") eqn:Hlst; [discriminate|].
  destruct (byte_eqb (byteAt (escaped_form e)
                        (length (escaped_form e) - 1)) ".") eqn:Hlst'.
  { apply (last_byte_iff _ _ (escaped_form_nonempty e Hnil)) in Hlst'
      as [t Ht].
    apply (escaped_form_last_sep "." e t (or_introl eq_refl)) in Ht.
    apply (last_byte_iff e _ Hnil) in Ht. congruence. }
  destruct (find (fun r => negb (fileNameOK U r)) (runes e)); [discriminate|].
  assert (Hf : find (fun r => negb (fileNameOK U r))
                 (runes (escaped_form e)) = None).
  { apply find_none_forallb.
    rewrite (runes_ascii _ (escaped_form_ascii e Hascii)).
    apply forallb_forall. intros r Hr. apply in_map_iff in Hr as (c & <- & Hin).
    pose proof (escaped_form_file_chars e Hchars) as Hfc.
    pose proof (escaped_form_ascii e Hascii) as Hea.
    unfold is_ascii in Hea. rewrite Forall_forall in Hfc, Hea.
    rewrite (fileNameOK_file_chars U c (Hea c Hin)).
    apply existsb_byte_In. now apply Hfc. }
  rewrite Hf. clear Hf.
  change (str ".") with ["."%char] in *.
  assert (Hshort : forall s, match Index s ["."%char] with
                             | Some i => firstn i s
                             | None => s
                             end = before_first_dot s).
  { intros s. unfold before_first_dot, notDot.
    rewrite <- (Index_byte_span "." s).
    destruct (Index s ["."%char]); reflexivity. }
  rewrite !Hshort in *. rewrite span_notDot_escaped.
  set (short := before_first_dot e) in *.
  assert (Hsa : is_ascii short).
  { unfold short, before_first_dot. apply span_prefix_Forall.
    exact Hascii. }
  destruct (find (fun bad => EqualFold U bad short) badWindowsNames) eqn:Hw;
    [discriminate|].
  destruct (existsb (fun c => isUpper (b2z c)) short) eqn:Hup.
  - assert (Hw' : find (fun bad => EqualFold U bad (escaped_form short))
                    badWindowsNames = None).
    { apply find_none_iff. intros bad Hbad.
      destruct (EqualFold U bad (escaped_form short)) eqn:E; [|reflexivity].
      apply (EqualFold_ascii U bad _ (badWindowsNames_ascii bad Hbad)
               (escaped_form_ascii short Hsa)) in E.
      exfalso. apply (bang_not_reserved bad (escaped_form short) Hbad);
        [now apply escaped_form_has_bang | exact E]. }
    now rewrite Hw'.
  - rewrite (escaped_form_no_upper short Hup). now rewrite Hw.
Qed.

Lemma checkPath_escaped (U : unicode_tables) (p : gostring) :
  checkPath U p true = None -> Forall plain_byte p ->
  checkPath U (escaped_form p) true = None.
Proof.
  intros Hc Hp. pose proof (checkPath_cases U p true Hc) as Hel.
  pose proof (plain_is_ascii p Hp) as Hascii.
  unfold checkPath in *.
  rewrite (ValidString_ascii _ (escaped_form_ascii p Hascii)). cbn [negb].
  destruct (negb (ValidString p)); [discriminate|].
  destruct (streq p []) eqn:Hnil; [discriminate|].
  apply streq_neq in Hnil.
  replace (streq (escaped_form p) []) with false
    by (symmetry; apply streq_neq; now apply escaped_form_nonempty).
  destruct (Contains p (str "..")) eqn:Hdd; [discriminate|].
  destruct (Contains (escaped_form p) (str "..")) eqn:Hdd'.
  { apply Contains_iff in Hdd'.
    apply escaped_form_contains_sep in Hdd';
      [|repeat (apply Forall_cons; [now left|]); apply Forall_nil
       | discriminate].
    apply Contains_iff in Hdd'. congruence. }
  destruct (Contains p (str "//")) eqn:Hss; [discriminate|].
  destruct (Contains (escaped_form p) (str "//")) eqn:Hss'.
  { apply Contains_iff in Hss'.
    apply escaped_form_contains_sep in Hss';
      [|repeat (apply Forall_cons; [now right|]); apply Forall_nil
       | discriminate].
    apply Contains_iff in Hss'. congruence. }
  destruct (byte_eqb (byteAt p (length p - 1)) "/") eqn:Hlst; [discriminate|].
  destruct (byte_eqb (byteAt (escaped_form p)
                        (length (escaped_form p) - 1)) "/") eqn:Hlst'.
  { apply (last_byte_iff _ _ (escaped_form_nonempty p Hnil)) in Hlst'
      as [t Ht].
    apply (escaped_form_last_sep "/" p t (or_intror eq_refl)) in Ht.
    apply (last_byte_iff p _ Hnil) in Ht. congruence. }
  apply checkPath_elements. rewrite split_on_escaped.
  apply Forall_map. rewrite Forall_forall in *. intros e He.
  apply checkElem_escaped; [now apply Hel|].
  apply Forall_forall. intros c Hce. apply Hp.
  clear - He Hce. revert e He Hce.
  induction p as [|x p IH]; simpl; intros e He Hce.
  - destruct He as [<- | []]. contradiction.
  - destruct (byte_eqb x "/").
    + destruct He as [<- | He]; [contradiction|]. right. eauto.
    + destruct (split_on "/" p) as [|e0 es].
      * destruct He as [<- | []]. destruct Hce as [<- | []]. now left.
      * destruct He as [<- | He].
        -- destruct Hce as [<- | Hce]; [now left|]. right.
           apply (IH e0); [now left | exact Hce].
        -- right. apply (IH e); [now right | exact Hce].
Qed.

(** X14: the escaped form of a valid module path is a valid file path,
    and the escaped form of a version is a valid file-name element. *)
Theorem escaped_form_is_file_path (U : unicode_tables) (s e : gostring) :
  (EscapePath U s = (e, None) -> CheckFilePath U e = None)
  /\ (EscapeVersion U s = (e, None) -> checkElem U e true = None).
Proof.
  split; intros H.
  - apply EscapePath_inv in H as (Hc & Hp & ->).
    assert (Hi : checkPath U s false = None).
    { unfold CheckPath in Hc.
      destruct (checkPath U s false); [discriminate | reflexivity]. }
    apply checkPath_import_file in Hi.
    unfold CheckFilePath. now rewrite (checkPath_escaped U s Hi Hp).
  - apply EscapeVersion_inv in H as (Hc & Hp & ->).
    now apply checkElem_escaped.
Qed.

Lemma escaped_form_is_file_path_witness :
  (forall U, EscapePath U (str "github.com/Azure/azure-sdk-for-go")
             = (str "github.com/!azure/azure-sdk-for-go", None))
  /\ (forall U, CheckFilePath U (str "github.com/!azure/azure-sdk-for-go")
                = None).
Proof.
  split; intros U; [reflexivity|].
  apply (proj1 (escaped_form_is_file_path U
                  (str "github.com/Azure/azure-sdk-for-go")
                  (str "github.com/!azure/azure-sdk-for-go"))).
  reflexivity.
Defined.

(** *** File paths over ASCII *)

Lemma fileNameOK_runes_ascii (U : unicode_tables) (e : gostring) :
  is_ascii e ->
  find (fun r => negb (fileNameOK U r)) (runes e) = None
  <-> Forall (fun c => In c file_chars) e.
Proof.
  intros Ha. rewrite find_none_forallb, (runes_ascii e Ha).
  rewrite forallb_forall, Forall_forall.
  unfold is_ascii in Ha. rewrite Forall_forall in Ha. split.
  - intros H c Hc. apply existsb_byte_In.
    rewrite <- (fileNameOK_file_chars U c (Ha c Hc)).
    apply H. now apply in_map.
  - intros H r Hr. apply in_map_iff in Hr as (c & <- & Hc).
    rewrite (fileNameOK_file_chars U c (Ha c Hc)).
    apply existsb_byte_In. now apply H.
Qed.

Lemma checkElem_file_ascii (U : unicode_tables) (e : gostring) :
  is_ascii e -> checkElem U e true = None <-> file_elem_valid e.
Proof.
  intros Ha. unfold checkElem, file_elem_valid.
  destruct (streq e []) eqn:Hnil.
  { apply streq_eq in Hnil. split; [discriminate | tauto]. }
  apply streq_neq in Hnil.
  destruct (Nat.eqb (Count1 e ".") (length e)) eqn:Hcnt.
  { apply Count1_all in Hcnt. split; [discriminate | tauto]. }
  assert (Hdots : ~ Forall (eq "."%char) e).
  { intros H. apply Count1_all in H. congruence. }
  cbn [negb]. rewrite andb_false_r.
  destruct (byte_eqb (byteAt e (length e - 1)) ".") eqn:Hlst.
  { apply (last_byte_iff e _ Hnil) in Hlst as [t Ht].
    split; [discriminate|]. intros (_ & _ & H & _). now apply H in Ht. }
  assert (Htrail : forall t, e <> t ++ ["."%char]).
  { intros t Ht.
    assert (byte_eqb (byteAt e (length e - 1)) "." = true)
      by (apply (last_byte_iff e _ Hnil); eauto).
    congruence. }
  destruct (find (fun r => negb (fileNameOK U r)) (runes e)) as [r|] eqn:Hch.
  { split; [discriminate|]. intros (_ & _ & _ & H & _).
    apply (fileNameOK_runes_ascii U e Ha) in H. congruence. }
  apply (fileNameOK_runes_ascii U e Ha) in Hch.
  change (str ".") with ["."%char].
  assert (Hshort : match Index e ["."%char] with
                   | Some i => firstn i e
                   | None => e
                   end = before_first_dot e).
  { unfold before_first_dot, notDot. rewrite <- (Index_byte_span "." e).
    destruct (Index e ["."%char]); reflexivity. }
  rewrite Hshort.
  assert (Hascii : Forall (fun c => b2z c < 128) (before_first_dot e))
    by (apply span_prefix_Forall; exact Ha).
  assert (Hbad : find (fun bad => EqualFold U bad (before_first_dot e))
                   badWindowsNames = None
                 <-> forall bad, In bad reserved_names ->
                                 ~ fold_eq bad (before_first_dot e)).
  { rewrite find_none_iff, <- badWindowsNames_reserved.
    split; intros H bad Hin; specialize (H bad Hin).
    - intros Hf.
      apply (EqualFold_ascii U bad _ (badWindowsNames_ascii bad Hin) Hascii)
        in Hf.
      congruence.
    - destruct (EqualFold U bad (before_first_dot e)) eqn:E;
        [|reflexivity].
      apply (EqualFold_ascii U bad _ (badWindowsNames_ascii bad Hin) Hascii)
        in E.
      contradiction. }
  destruct (find _ badWindowsNames) eqn:Hw.
  - split; [discriminate|]. intros (_ & _ & _ & _ & H).
    apply Hbad in H. discriminate H.
  - split; [|reflexivity]. intros _.
    repeat split; try assumption. now apply Hbad.
Qed.

Lemma split_on_ascii (p e : gostring) :
  is_ascii p -> In e (split_on "/" p) -> is_ascii e.
Proof.
  unfold is_ascii. intros Hp. revert e.
  induction Hp as [|c p Hc Hp IH]; simpl; intros e He.
  - destruct He as [<- | []]. constructor.
  - destruct (byte_eqb c "/").
    + destruct He as [<- | He]; [constructor | now apply IH].
    + destruct (split_on "/" p) as [|e0 es].
      * destruct He as [<- | []]. now repeat constructor.
      * destruct He as [<- | He].
        -- constructor; [exact Hc | apply IH; now left].
        -- apply IH. now right.
Qed.

(** X15: an ASCII path passes [CheckFilePath] exactly when it is non-empty,
    has no [..] or [//], does not end in ['/'], and each element is
    non-empty, not made of dots only, does not end in a dot, consists of
    letters, digits, the space and [! # $ % & ( ) + , - . = @ [ ] ^ _ { } ~],
    and has no reserved device name before its first dot; an element may
    start with a dot. *)
Theorem CheckFilePath_ascii_spec (U : unicode_tables) (p : gostring) :
  is_ascii p -> CheckFilePath U p = None <-> file_path_valid p.
Proof.
  intros Ha.
  assert (Hw : CheckFilePath U p = None <-> checkPath U p true = None).
  { unfold CheckFilePath. destruct (checkPath U p true); split;
      intros H; first [discriminate H | reflexivity]. }
  rewrite Hw. clear Hw. unfold checkPath, file_path_valid.
  rewrite (ValidString_ascii p Ha). cbn [negb].
  destruct (streq p []) eqn:Hnil.
  { apply streq_eq in Hnil. split; [discriminate | tauto]. }
  apply streq_neq in Hnil.
  destruct (Contains p (str "..")) eqn:Hdd.
  { apply Contains_iff in Hdd. split; [discriminate | tauto]. }
  apply Contains_false_iff in Hdd.
  destruct (Contains p (str "//")) eqn:Hss.
  { apply Contains_iff in Hss. split; [discriminate | tauto]. }
  apply Contains_false_iff in Hss.
  destruct (byte_eqb (byteAt p (length p - 1)) "/") eqn:Hlst.
  { apply (last_byte_iff p _ Hnil) in Hlst as [t Ht].
    split; [discriminate|]. intros (_ & _ & _ & H & _). now apply H in Ht. }
  assert (Htrail : forall t, p <> t ++ ["/"%char]).
  { intros t Ht.
    assert (byte_eqb (byteAt p (length p - 1)) "/" = true)
      by (apply (last_byte_iff p _ Hnil); eauto).
    congruence. }
  rewrite checkPath_elements.
  assert (Hel : Forall (fun e => checkElem U e true = None)
                  (split_on "/" p)
                <-> Forall file_elem_valid (split_on "/" p)).
  { rewrite !Forall_forall.
    split; intros H e He;
      apply (checkElem_file_ascii U e (split_on_ascii p e Ha He)); auto. }
  rewrite Hel. tauto.
Qed.

Lemma CheckFilePath_ascii_spec_witness :
  is_ascii (str "a/.gitignore")
  /\ (forall U, CheckFilePath U (str "a/.gitignore") = None)
  /\ file_path_valid (str "a/.gitignore").
Proof.
  assert (Ha : is_ascii (str "a/.gitignore")).
  { unfold is_ascii. repeat constructor. }
  split; [exact Ha|]. split; [reflexivity|].
  apply (CheckFilePath_ascii_spec
           {| letter_above_Latin1 := fun _ => false;
              SimpleFold_reaches := fun _ _ => false |}
           (str "a/.gitignore") Ha).
  reflexivity.
Defined.
